(** * hlbot: the event queue, trade merging and the realtime tracker

    A shallow embedding of [src/queue.ts] (the bounded, sequence-numbered
    [EventQueue] and the [mergeTrades] pagination helper) and of the
    position and fill handlers of [src/realtime.ts], with the properties
    stated about them.

    Modelling conventions.
    - Integer-valued JavaScript numbers (sequence numbers, capacities,
      limits, identifiers, epoch milliseconds) are [Z]; they are assumed to
      stay in the range where doubles are exact.
    - Finite real-valued numbers (sizes, prices) are canonical rationals
      [Qc]: comparison, sign, absolute value and [===] on finite doubles
      agree with the rationals they denote; rounding and overflow of [+] and
      [*] are not modelled.  The result of [Number(x)] that only matters
      through [Number.isFinite] is an [option Qc], [None] standing for NaN
      and the infinities.
    - Wall-clock reads ([Date.now()], [new Date()]) and the mark price are
      inputs of the handlers.  Instants are epoch milliseconds; their ISO
      rendering is left to the host.
    - JavaScript [Map]s keyed by address are [gmap string _].
    - A promise is named by the task it waits for; an [async] function is
      cut at its [await] into the part that runs at the call and the part
      that runs when the awaited answer arrives.  Subscriptions and
      transports of the tracker are not represented. *)

From Stdlib Require Import Ascii String QArith Qcanon Qcabs Qabs Lqa.
From stdpp Require Import base numbers list strings gmap sorting.

Local Open Scope Z_scope.

(** ** Events (the [ChangeEvent] union of queue.ts) *)

Inductive PositionSide := Long | Short | Flat.
Inductive TradeSide := Buy | Sell.
Inductive TradeEffect := EffOpen | EffClose.

#[global] Instance PositionSide_eq_dec : EqDecision PositionSide.
Proof. solve_decision. Defined.
#[global] Instance TradeSide_eq_dec : EqDecision TradeSide.
Proof. solve_decision. Defined.
#[global] Instance TradeEffect_eq_dec : EqDecision TradeEffect.
Proof. solve_decision. Defined.

(** The [type: 'position'] variant without [seq].  [symbol] has the single
    value ['BTC'] and is not represented. *)
Record PositionEvent := {
  p_at : Z;
  p_address : string;
  p_size : Qc;
  p_side : PositionSide;
  p_entryPriceUsd : option Qc;
  p_liquidationPriceUsd : option Qc;
  p_pnlUsd : option Qc;
  p_leverage : option Qc;
}.

(** The [type: 'trade'] variant without [seq]. *)
Record TradeEvent := {
  t_at : Z;
  t_address : string;
  t_side : TradeSide;
  t_direction : PositionSide;
  t_effect : TradeEffect;
  t_priceUsd : Qc;
  t_size : Qc;
  t_realizedPnlUsd : option Qc;
  t_startPosition : option Qc;
  t_fee : option (option Qc);
  t_feeToken : option string;
  t_hash : option string;
  t_action : option string;
  t_dbId : option Z;
}.

(** [Omit<ChangeEvent, 'seq'>] *)
Inductive EventBody :=
  | PositionBody (p : PositionEvent)
  | TradeBody (t : TradeEvent).

Record ChangeEvent := { seq : Z; body : EventBody }.

(** ** [class EventQueue] *)

Module EventQueue.

Record t := { capacity : Z; buffer : list ChangeEvent; nextSeq : Z }.

(** [constructor(capacity = 5000)] *)
Definition constructor (cap : option Z) : t :=
  {| capacity := Z.max 100 (default 5000 cap); buffer := []; nextSeq := 1 |}.

(** [buffer.splice(0, n)] for a positive integer [n]: drops the first [n]
    elements in place. *)
Definition splice0 (n : Z) (l : list ChangeEvent) : list ChangeEvent :=
  drop (Z.to_nat n) l.

(** [push(evt)]: returns the stamped event and the queue after the call. *)
Definition push (evt : EventBody) (q : t) : ChangeEvent * t :=
  let withSeq := {| seq := nextSeq q; body := evt |} in
  let pushed := buffer q ++ [withSeq] in
  let len := Z.of_nat (length pushed) in
  let trimmed :=
    if bool_decide (capacity q < len) then splice0 (len - capacity q) pushed
    else pushed in
  (withSeq,
   {| capacity := capacity q; buffer := trimmed; nextSeq := nextSeq q + 1 |}).

(** [buffer.findIndex((e) => e.seq > sinceSeq)]; [None] is [-1]. *)
Definition findIndex (sinceSeq : Z) (l : list ChangeEvent) : option nat :=
  fst <$> list_find (λ e, sinceSeq < seq e) l.

(** [Math.max(1, Math.min(1000, limit))] *)
Definition pageSize (limit : Z) : Z := Z.max 1 (Z.min 1000 limit).

(** [Array.prototype.slice(start, end)] for [0 <= start <= end]. *)
Definition slice (start stop : Z) (l : list ChangeEvent) : list ChangeEvent :=
  take (Z.to_nat (stop - start)) (drop (Z.to_nat start) l).

(** [listSince(sinceSeq, limit = 200)] *)
Definition listSince (sinceSeq : Z) (limit : option Z) (q : t)
  : list ChangeEvent :=
  match findIndex sinceSeq (buffer q) with
  | None => []
  | Some startIdx =>
      let start := Z.of_nat startIdx in
      slice start (start + pageSize (default 200 limit)) (buffer q)
  end.

Definition latestSeq (q : t) : Z := nextSeq q - 1.

Definition reset (q : t) : t :=
  {| capacity := capacity q; buffer := []; nextSeq := 1 |}.

(** A run of [push] calls; the results are collected in call order. *)
Fixpoint pushAll (evts : list EventBody) (q : t) : list ChangeEvent * t :=
  match evts with
  | [] => ([], q)
  | e :: rest =>
      let '(r, q1) := push e q in
      let '(rs, q2) := pushAll rest q1 in
      (r :: rs, q2)
  end.

(** The states a queue goes through: built by the constructor, then
    changed by [push] and [reset] only. *)
Inductive reachable : t → Prop :=
  | reach_new cap : reachable (constructor cap)
  | reach_push e q : reachable q → reachable (snd (push e q))
  | reach_reset q : reachable q → reachable (reset q).

(** What every reachable queue satisfies: the capacity is the floored
    one, the buffer never exceeds it, and the buffer holds the last
    [length buffer] sequence numbers below [nextSeq], in order. *)
Record inv (q : t) : Prop := {
  inv_cap : 100 ≤ capacity q;
  inv_len : Z.of_nat (length (buffer q)) ≤ capacity q;
  inv_seqs :
    seq <$> buffer q
    = seqZ (nextSeq q - Z.of_nat (length (buffer q)))
           (Z.of_nat (length (buffer q)));
  inv_next : Z.of_nat (length (buffer q)) < nextSeq q;
}.

(** Keeping the last [c] elements of a list: what [push] leaves in the
    buffer, whichever branch it takes. *)
Definition keepLast (c : Z) (l : list ChangeEvent) : list ChangeEvent :=
  drop (Z.to_nat (Z.of_nat (length l) - c)) l.

End EventQueue.

(** ** String helpers *)

(** [String.prototype.toLowerCase] on ASCII text. *)
Definition lowerAscii (c : ascii) : ascii :=
  let n := nat_of_ascii c in
  if (65 <=? n)%nat && (n <=? 90)%nat then ascii_of_nat (n + 32) else c.

Fixpoint toLowerCase (s : string) : string :=
  match s with
  | EmptyString => EmptyString
  | String c rest => String (lowerAscii c) (toLowerCase rest)
  end.

(** Truthiness of an optional string: [null], [undefined] and the empty
    string are falsy. *)
Definition truthy (s : option string) : option string :=
  match s with
  | Some EmptyString | None => None
  | Some str => Some str
  end.

(** ** Trade pagination helpers ([TradeRow], [tradeKey], [mergeTrades]) *)

Module Pagination.

(** [interface TradeRow].  [tr_id] is optional because [tradeKey] takes a
    [Partial<TradeRow>] and tests it against [null]; [tr_hash] is the
    untyped [hash] field [tradeKey] also reads. *)
Record TradeRow := {
  tr_id : option Z;
  tr_time : string;
  tr_address : string;
  tr_action : string;
  tr_size : Qc;
  tr_startPosition : option Qc;
  tr_price : Qc;
  tr_closedPnl : option Qc;
  tr_tx : option string;
  tr_hash : option string;
}.

(** The key strings of [tradeKey], by their parts: ["tx:<hash>"],
    ["id:<n>"] and ["time:..|addr:..|size:..|price:.."].  The prefixes keep
    the three classes apart. *)
Inductive TradeKey :=
  | KeyTx (h : string)
  | KeyId (n : Z)
  | KeyComposite (time addr : string) (size price : Qc).

#[global] Instance TradeKey_eq_dec : EqDecision TradeKey.
Proof. solve_decision. Defined.

#[global] Instance TradeKey_countable : Countable TradeKey.
Proof.
  refine (inj_countable'
    (λ k, match k with
          | KeyTx h => inl h
          | KeyId n => inr (inl n)
          | KeyComposite t a s p => inr (inr (t, a, s, p))
          end)
    (λ x, match x with
          | inl h => KeyTx h
          | inr (inl n) => KeyId n
          | inr (inr (t, a, s, p)) => KeyComposite t a s p
          end) _).
  by intros [].
Defined.

Definition tradeKey (t : TradeRow) : TradeKey :=
  match truthy (tr_tx t) with
  | Some tx => KeyTx (toLowerCase tx)
  | None =>
    match truthy (tr_hash t) with
    | Some h => KeyTx (toLowerCase h)
    | None =>
      match tr_id t with
      | Some n => KeyId n
      | None => KeyComposite (tr_time t) (tr_address t) (tr_size t) (tr_price t)
      end
    end
  end.

(** The [for (const t of incoming)] loop of [mergeTrades]: the rows whose
    key is not yet in [seen], each key being added as it is met. *)
Fixpoint additionsFrom (seen : gset TradeKey) (incoming : list TradeRow)
  : list TradeRow :=
  match incoming with
  | [] => []
  | t :: rest =>
      let key := tradeKey t in
      if decide (key ∈ seen) then additionsFrom seen rest
      else t :: additionsFrom ({[key]} ∪ seen) rest
  end.

Section WithClock.

(** [new Date(s).getTime()], a host function; [None] is NaN. *)
Variable getTime : string → option Z.

(** The comparator passed to [sort]; [None] is a NaN result. *)
Definition compareTrades (a b : TradeRow) : option Z :=
  match getTime (tr_time a), getTime (tr_time b) with
  | Some ta, Some tb =>
      if bool_decide (ta ≠ tb) then Some (tb - ta)
      else match tr_id b, tr_id a with
           | Some ib, Some ia => Some (ib - ia)
           | _, _ => None
           end
  | _, _ => None
  end.

(** [sort] moves [a] behind [b] only when the comparator is positive; a
    NaN counts as zero. *)
Definition comesAfter (a b : TradeRow) : bool :=
  match compareTrades a b with
  | Some v => bool_decide (0 < v)
  | None => false
  end.

Fixpoint insertSorted (x : TradeRow) (l : list TradeRow) : list TradeRow :=
  match l with
  | [] => [x]
  | y :: rest =>
      if comesAfter x y then y :: insertSorted x rest else x :: y :: rest
  end.

(** [Array.prototype.sort] with [compareTrades]: a stable sort, here by
    insertion.  With a consistent comparator (every time parses, every id
    is present) every stable sort gives this order. *)
Definition sortTrades (l : list TradeRow) : list TradeRow :=
  foldr insertSorted [] l.

Definition mergeTrades (existing incoming : list TradeRow) : list TradeRow :=
  let seen : gset TradeKey := list_to_set (tradeKey <$> existing) in
  let additions := additionsFrom seen incoming in
  if bool_decide (length additions = 0%nat) then existing
  else sortTrades (existing ++ additions).

(** A row the comparator can order: its time parses and it has an id. *)
Definition wellFormed (a : TradeRow) : Prop :=
  is_Some (getTime (tr_time a)) ∧ is_Some (tr_id a).

(** [a] may stand before [b] in an order descending by time, then id. *)
Definition descTimeId (a b : TradeRow) : Prop :=
  match getTime (tr_time a), getTime (tr_time b), tr_id a, tr_id b with
  | Some ta, Some tb, Some ia, Some ib => tb < ta ∨ (ta = tb ∧ ib ≤ ia)
  | _, _, _, _ => False
  end.

End WithClock.

End Pagination.

(** ** The realtime tracker ([class RealtimeTracker]) *)

Module Realtime.

Record PositionSnapshot := {
  snap_size : Qc;
  snap_entryPriceUsd : option Qc;
  snap_liquidationPriceUsd : option Qc;
  snap_leverage : option Qc;
}.

Definition sideFromSize (size : Qc) : PositionSide :=
  if bool_decide (0 < size)%Qc then Long
  else if bool_decide (size < 0)%Qc then Short
  else Flat.

(** [/^btc$/i.test(coin)] *)
Definition isBtc (coin : string) : bool := bool_decide (toLowerCase coin = "btc").

(** One entry of [assetPositions], as the handlers read it: the coin name
    (empty when absent) and, for each numeric field, the value of
    [Number(field)] when it is finite. *)
Record RawPosition := {
  rp_coin : string;
  rp_szi : option Qc;
  rp_entryPx : option Qc;
  rp_leverageValue : option Qc;
  rp_liquidationPx : option Qc;
}.

(** The [for (const ap of positions)] search for the first BTC entry. *)
Definition findBtc (positions : list RawPosition) : option RawPosition :=
  snd <$> list_find (λ ap, isBtc (rp_coin ap) = true) positions.

(** The snapshot both handlers build from the payload. *)
Definition parseSnapshot (positions : list RawPosition) : PositionSnapshot :=
  let btc := findBtc positions in
  {| snap_size := default 0%Qc (btc ≫= rp_szi);
     snap_entryPriceUsd := btc ≫= rp_entryPx;
     snap_liquidationPriceUsd := btc ≫= rp_liquidationPx;
     snap_leverage := btc ≫= rp_leverageValue |}.

(** [size * (mark - entryPriceUsd)] when both are known, else [null]. *)
Definition pnlOf (snapshot : PositionSnapshot) (mark : option Qc) : option Qc :=
  match snap_entryPriceUsd snapshot, mark with
  | Some entry, Some m => Some (snap_size snapshot * (m - entry))%Qc
  | _, _ => None
  end.

(** The argument of [upsertCurrentPosition]. *)
Record PositionRow := {
  row_address : string;
  row_snapshot : PositionSnapshot;
  row_pnlUsd : option Qc;
  row_updatedAt : Z;
}.

(** [persistencePayload] of the fill handler. *)
Record TradePayload := {
  pay_at : Z;
  pay_address : string;
  pay_action : string;
  pay_size : Qc;
  pay_startPosition : Qc;
  pay_priceUsd : Qc;
  pay_realizedPnlUsd : option Qc;
  pay_fee : option (option Qc);
  pay_feeToken : option string;
  pay_hash : option string;
}.

(** The calls made to the persistence module. *)
Inductive PersistCall :=
  | InsertEvent (evt : ChangeEvent)
  | UpsertCurrentPosition (row : PositionRow)
  | InsertTradeIfNew (addr : string) (payload : TradePayload).

(** The tracker: the fields of the class that the handlers read and
    write, and a record of what they asked of the outside: [writes] are
    the persistence calls in call order, [pulls] the addresses of the
    [infoClearinghouse] requests issued, [tasks] the number of priming
    promises created (a promise is named by its index). *)
Record Tracker := {
  snapshots : gmap string (PositionSnapshot * Z);
  q : EventQueue.t;
  primeInflight : gmap string nat;
  lastPrimeAt : gmap string Z;
  writes : list PersistCall;
  pulls : list string;
  tasks : nat;
}.

Definition positionBody (addr : string) (snapshot : PositionSnapshot)
    (pnl : option Qc) (updatedAt : Z) : EventBody :=
  PositionBody {|
    p_at := updatedAt; p_address := addr;
    p_size := snap_size snapshot; p_side := sideFromSize (snap_size snapshot);
    p_entryPriceUsd := snap_entryPriceUsd snapshot;
    p_liquidationPriceUsd := snap_liquidationPriceUsd snapshot;
    p_pnlUsd := pnl; p_leverage := snap_leverage snapshot |}.

(** What both handlers do once they decide to record [snapshot]: store it,
    push the position event, and issue the two persistence calls. *)
Definition recordSnapshot (addr : string) (snapshot : PositionSnapshot)
    (updatedAt : Z) (mark : option Qc) (s : Tracker) : Tracker :=
  let pnl := pnlOf snapshot mark in
  let '(evt, q') := EventQueue.push (positionBody addr snapshot pnl updatedAt) (q s) in
  {| snapshots := <[addr := (snapshot, updatedAt)]> (snapshots s);
     q := q';
     primeInflight := primeInflight s;
     lastPrimeAt := lastPrimeAt s;
     writes := writes s
       ++ [InsertEvent evt;
           UpsertCurrentPosition
             {| row_address := addr; row_snapshot := snapshot;
                row_pnlUsd := pnl; row_updatedAt := updatedAt |}];
     pulls := pulls s;
     tasks := tasks s |}.

(** The [changed] test of [onClearinghouse]. *)
Definition changed (prev : option PositionSnapshot) (snapshot : PositionSnapshot)
  : bool :=
  match prev with
  | None => true
  | Some p =>
      bool_decide (snap_size p ≠ snap_size snapshot)
      || bool_decide (snap_entryPriceUsd p ≠ snap_entryPriceUsd snapshot)
      || bool_decide (snap_liquidationPriceUsd p ≠ snap_liquidationPriceUsd snapshot)
      || bool_decide (snap_leverage p ≠ snap_leverage snapshot)
  end.

(** [onClearinghouse(addr, evt)]; [positions] is
    [evt?.clearinghouseState?.assetPositions || []], [now] the clock read
    of [new Date()] and [mark] the current mark price. *)
Definition onClearinghouse (addr : string) (positions : list RawPosition)
    (now : Z) (mark : option Qc) (s : Tracker) : Tracker :=
  let snapshot := parseSnapshot positions in
  let prev := fst <$> snapshots s !! addr in
  if changed prev snapshot then recordSnapshot addr snapshot now mark s
  else s.

(** [performPrime(addr)] up to its [await]: the pull is issued. *)
Definition performPrime_start (addr : string) (s : Tracker) : Tracker :=
  {| snapshots := snapshots s; q := q s;
     primeInflight := primeInflight s; lastPrimeAt := lastPrimeAt s;
     writes := writes s; pulls := pulls s ++ [addr]; tasks := tasks s |}.

(** [performPrime(addr)] after its [await]: [response] is the
    [assetPositions] of the answer, or [None] when the pull failed (the
    [catch] ignores it). *)
Definition performPrime_resume (addr : string)
    (response : option (list RawPosition)) (now : Z) (mark : option Qc)
    (s : Tracker) : Tracker :=
  match response with
  | None => s
  | Some positions => recordSnapshot addr (parseSnapshot positions) now mark s
  end.

(** The [finally] callback attached by [primeFromHttp]. *)
Definition primeFinally (addr : string) (now : Z) (s : Tracker) : Tracker :=
  {| snapshots := snapshots s; q := q s;
     primeInflight := delete addr (primeInflight s);
     lastPrimeAt := <[addr := now]> (lastPrimeAt s);
     writes := writes s; pulls := pulls s; tasks := tasks s |}.

Record PrimeOpts := { force : option bool; minIntervalMs : option Z }.

(** What the promise returned by [primeFromHttp] waits for: the priming
    task with the given name, or nothing (it is already resolved). *)
Inductive PrimeOutcome :=
  | Settles (task : nat)
  | AlreadyResolved.

#[global] Instance PrimeOutcome_eq_dec : EqDecision PrimeOutcome.
Proof. solve_decision. Defined.

(** [primeFromHttp(addr, opts)], the part that runs at the call. *)
Definition primeFromHttp (addr : string) (opts : option PrimeOpts) (now : Z)
    (s : Tracker) : PrimeOutcome * Tracker :=
  let force := default true (opts ≫= force) in
  let minIntervalMs := default 0 (opts ≫= minIntervalMs) in
  match primeInflight s !! addr with
  | Some inflight => (Settles inflight, s)
  | None =>
      let last := default 0 (lastPrimeAt s !! addr) in
      if negb force && bool_decide (0 < minIntervalMs)
         && bool_decide (now - last < minIntervalMs)
      then (AlreadyResolved, s)
      else
        let s1 := performPrime_start addr s in
        let task := tasks s1 in
        (Settles task,
         {| snapshots := snapshots s1; q := q s1;
            primeInflight := <[addr := task]> (primeInflight s1);
            lastPrimeAt := lastPrimeAt s1;
            writes := writes s1; pulls := pulls s1; tasks := S task |})
  end.

(** The priming task of [addr] runs to its end: the rest of
    [performPrime], then the [finally] callback. *)
Definition primeSettle (addr : string) (response : option (list RawPosition))
    (now : Z) (mark : option Qc) (nowFinally : Z) (s : Tracker) : Tracker :=
  primeFinally addr nowFinally (performPrime_resume addr response now mark s).

(** *** Fills *)

(** One entry of [evt.fills] as the handler reads it: [String(coin)],
    the finite values of [Number(px)], [Number(sz)],
    [Number(startPosition)] and [Number(closedPnl)], whether [side] is
    ['B'], the optional [hash], [fee] and [feeToken], and [Number(time)]
    when it is a number. *)
Record RawFill := {
  f_coin : string;
  f_px : option Qc;
  f_sz : option Qc;
  f_isBuy : bool;
  f_startPosition : option Qc;
  f_hash : option string;
  f_fee : option (option Qc);
  f_feeToken : option string;
  f_closedPnl : option Qc;
  f_time : option Z;
}.

(** [side === 'buy' ? +sz : -sz] *)
Definition fillDelta (side : TradeSide) (sz : Qc) : Qc :=
  match side with Buy => sz | Sell => (- sz)%Qc end.

Definition fillEffect (startPosition newPos : Qc) : TradeEffect :=
  if bool_decide (Qcabs startPosition < Qcabs newPos)%Qc then EffOpen
  else if bool_decide (newPos = 0%Qc) then EffClose else EffClose.

Definition fillDirection (delta newPos : Qc) : PositionSide :=
  match sideFromSize newPos with
  | Flat =>
      if bool_decide (0 < delta)%Qc then Long
      else if bool_decide (delta < 0)%Qc then Short
      else Flat
  | side => side
  end.

Definition actionLabel (startPosition delta newPos : Qc) : string :=
  if bool_decide (startPosition = 0%Qc) then
    if bool_decide (0 < delta)%Qc then "Open Long" else "Open Short"
  else if bool_decide (0 < startPosition)%Qc then
    if bool_decide (0 < delta)%Qc then "Increase Long"
    else if bool_decide (newPos = 0%Qc) then "Close Long" else "Decrease Long"
  else if bool_decide (startPosition < 0)%Qc then
    if bool_decide (delta < 0)%Qc then "Increase Short"
    else if bool_decide (newPos = 0%Qc) then "Close Short" else "Decrease Short"
  else "".

(** [Number(f?.time) || Date.now()] *)
Definition fillAt (time : option Z) (now : Z) : Z :=
  match time with
  | Some t => if bool_decide (t = 0) then now else t
  | None => now
  end.

(** The body of the [for (const f of fills)] loop up to the persistence
    call: [None] when the fill is skipped, else the payload handed to
    [insertTradeIfNew] and the trade event built once that call has
    answered with [dbId]. *)
Definition fillTrade (addr : string) (f : RawFill) (now : Z)
  : option (TradePayload * (option Z → TradeEvent)) :=
  if negb (isBtc (f_coin f)) then None
  else
    match f_px f, f_sz f, f_startPosition f with
    | Some px, Some sz, Some startPosition =>
        let side := if f_isBuy f then Buy else Sell in
        let delta := fillDelta side sz in
        let newPos := (startPosition + delta)%Qc in
        let effect := fillEffect startPosition newPos in
        let direction := fillDirection delta newPos in
        let at_ := fillAt (f_time f) now in
        let label := actionLabel startPosition delta newPos in
        Some
          ({| pay_at := at_; pay_address := addr; pay_action := label;
              pay_size := Qcabs sz; pay_startPosition := startPosition;
              pay_priceUsd := px; pay_realizedPnlUsd := f_closedPnl f;
              pay_fee := f_fee f; pay_feeToken := f_feeToken f;
              pay_hash := f_hash f |},
           λ dbId,
             {| t_at := at_; t_address := addr; t_side := side;
                t_direction := direction; t_effect := effect;
                t_priceUsd := px; t_size := Qcabs sz;
                t_realizedPnlUsd := f_closedPnl f;
                t_startPosition := Some startPosition;
                t_fee := f_fee f; t_feeToken := f_feeToken f;
                t_hash := f_hash f; t_action := Some label;
                t_dbId := dbId |})
    | _, _, _ => None
    end.

(** One turn of the fill loop; [dbId] is the id [insertTradeIfNew]
    answered with.  The result tells whether the fill was processed. *)
Definition fillStep (addr : string) (f : RawFill) (now : Z) (dbId : option Z)
    (s : Tracker) : bool * Tracker :=
  match fillTrade addr f now with
  | None => (false, s)
  | Some (payload, mkEvent) =>
      let '(_, q') := EventQueue.push (TradeBody (mkEvent dbId)) (q s) in
      (true,
       {| snapshots := snapshots s; q := q';
          primeInflight := primeInflight s; lastPrimeAt := lastPrimeAt s;
          writes := writes s ++ [InsertTradeIfNew addr payload];
          pulls := pulls s; tasks := tasks s |})
  end.

(** [onUserEvents(addr, evt)] for an [evt] with a [fills] array.  Each
    fill comes with the clock read and the persistence answer of its
    turn; [nowPrime] is the clock read of the closing rate-limited
    [primeFromHttp] call, made when some fill was processed. *)
Fixpoint fillLoop (addr : string) (fills : list (RawFill * Z * option Z))
    (s : Tracker) : bool * Tracker :=
  match fills with
  | [] => (false, s)
  | (f, now, dbId) :: rest =>
      let '(t1, s1) := fillStep addr f now dbId s in
      let '(t2, s2) := fillLoop addr rest s1 in
      (t1 || t2, s2)
  end.

Definition onUserEvents (addr : string) (fills : list (RawFill * Z * option Z))
    (nowPrime : Z) (s : Tracker) : Tracker :=
  let '(touched, s1) := fillLoop addr fills s in
  if touched then
    (primeFromHttp addr
       (Some {| force := Some false; minIntervalMs := Some 2000 |})
       nowPrime s1).2
  else s1.

(** The tracker's handlers as events of one run of the process. *)
Inductive Action :=
  | Clearinghouse (addr : string) (positions : list RawPosition)
      (now : Z) (mark : option Qc)
  | UserEvents (addr : string) (fills : list (RawFill * Z * option Z))
      (nowPrime : Z)
  | Prime (addr : string) (opts : option PrimeOpts) (now : Z)
  | PrimeSettled (addr : string) (response : option (list RawPosition))
      (now : Z) (mark : option Qc) (nowFinally : Z).

Definition act (a : Action) (s : Tracker) : Tracker :=
  match a with
  | Clearinghouse addr positions now mark =>
      onClearinghouse addr positions now mark s
  | UserEvents addr fills nowPrime => onUserEvents addr fills nowPrime s
  | Prime addr opts now => (primeFromHttp addr opts now s).2
  | PrimeSettled addr response now mark nowFinally =>
      primeSettle addr response now mark nowFinally s
  end.

Definition actAll (l : list Action) (s : Tracker) : Tracker :=
  foldl (λ s a, act a s) s l.

(** [a] is not the end of the priming task of [addr]. *)
Definition keepsInflight (addr : string) (a : Action) : Prop :=
  match a with
  | PrimeSettled addr' _ _ _ _ => addr' ≠ addr
  | _ => True
  end.

(** [new RealtimeTracker(getAddresses, queue)] *)
Definition constructor (queue : EventQueue.t) : Tracker :=
  {| snapshots := ∅; q := queue; primeInflight := ∅; lastPrimeAt := ∅;
     writes := []; pulls := []; tasks := 0 |}.

End Realtime.

(** A trade event body and a three-push queue of floor capacity, used to
    run the definitions on concrete data. *)
Definition sampleTrade (addr : string) : EventBody :=
  TradeBody {|
    t_at := 1704067200000; t_address := addr; t_side := Buy;
    t_direction := Long; t_effect := EffOpen;
    t_priceUsd := Qc_of_Z 50000; t_size := Qc_of_Z 1;
    t_realizedPnlUsd := None; t_startPosition := None; t_fee := None;
    t_feeToken := None; t_hash := None; t_action := None; t_dbId := None |}.

Definition sampleQueue : EventQueue.t :=
  (EventQueue.pushAll [sampleTrade "0x0"; sampleTrade "0x1"; sampleTrade "0x2"]
     (EventQueue.constructor (Some 10))).2.

(** Rows and a clock to run [mergeTrades] on: three stored rows, newest
    first, and an incoming page that repeats one of them. *)
Definition sampleClock (s : string) : option Z :=
  (λ found : nat * (string * Z), found.2.2) <$> list_find (λ p, p.1 = s)
    [("2024-01-01T00:00:01.000Z", 1704067201000);
     ("2024-01-01T00:00:02.000Z", 1704067202000);
     ("2024-01-01T00:00:03.000Z", 1704067203000);
     ("2024-01-01T00:00:04.000Z", 1704067204000);
     ("2024-01-01T00:00:05.000Z", 1704067205000);
     ("2024-01-01T00:00:06.000Z", 1704067206000);
     ("2024-01-01T00:00:07.000Z", 1704067207000);
     ("2024-02-01T00:00:02.000Z", 1706745602000);
     ("2024-03-01T00:00:01.000Z", 1709251201000)].

Definition sampleRow (id : Z) (time addr action : string) : Pagination.TradeRow :=
  {| Pagination.tr_id := Some id; Pagination.tr_time := time;
     Pagination.tr_address := addr; Pagination.tr_action := action;
     Pagination.tr_size := Qc_of_Z 1; Pagination.tr_startPosition := None;
     Pagination.tr_price := Qc_of_Z 100; Pagination.tr_closedPnl := None;
     Pagination.tr_tx := None; Pagination.tr_hash := None |}.

Definition sampleExisting : list Pagination.TradeRow :=
  [sampleRow 3 "2024-01-01T00:00:03.000Z" "a" "Buy";
   sampleRow 2 "2024-01-01T00:00:02.000Z" "a" "Sell";
   sampleRow 1 "2024-01-01T00:00:01.000Z" "b" "Buy"].


(** The same row with another id, with a transaction hash, with the
    untyped [hash] field, or without an id. *)
Definition withId (id : option Z) (r : Pagination.TradeRow) : Pagination.TradeRow :=
  {| Pagination.tr_id := id; Pagination.tr_time := Pagination.tr_time r;
     Pagination.tr_address := Pagination.tr_address r;
     Pagination.tr_action := Pagination.tr_action r;
     Pagination.tr_size := Pagination.tr_size r;
     Pagination.tr_startPosition := Pagination.tr_startPosition r;
     Pagination.tr_price := Pagination.tr_price r;
     Pagination.tr_closedPnl := Pagination.tr_closedPnl r;
     Pagination.tr_tx := Pagination.tr_tx r;
     Pagination.tr_hash := Pagination.tr_hash r |}.

Definition withTx (tx hash : option string) (r : Pagination.TradeRow)
  : Pagination.TradeRow :=
  {| Pagination.tr_id := Pagination.tr_id r;
     Pagination.tr_time := Pagination.tr_time r;
     Pagination.tr_address := Pagination.tr_address r;
     Pagination.tr_action := Pagination.tr_action r;
     Pagination.tr_size := Pagination.tr_size r;
     Pagination.tr_startPosition := Pagination.tr_startPosition r;
     Pagination.tr_price := Pagination.tr_price r;
     Pagination.tr_closedPnl := Pagination.tr_closedPnl r;
     Pagination.tr_tx := tx; Pagination.tr_hash := hash |}.

(** A closing fill (long 5, sell 5), a payload with one BTC position, and
    a tracker that already stores the snapshot of that payload. *)
Definition sampleFill : Realtime.RawFill :=
  {| Realtime.f_coin := "BTC"; Realtime.f_px := Some (Qc_of_Z 50000);
     Realtime.f_sz := Some (Qc_of_Z 5); Realtime.f_isBuy := false;
     Realtime.f_startPosition := Some (Qc_of_Z 5);
     Realtime.f_hash := Some "0xhash"; Realtime.f_fee := None;
     Realtime.f_feeToken := None; Realtime.f_closedPnl := None;
     Realtime.f_time := Some 1704067200000 |}.

Definition samplePositions : list Realtime.RawPosition :=
  [{| Realtime.rp_coin := "ETH"; Realtime.rp_szi := Some (Qc_of_Z 3);
      Realtime.rp_entryPx := Some (Qc_of_Z 2000);
      Realtime.rp_leverageValue := None; Realtime.rp_liquidationPx := None |};
   {| Realtime.rp_coin := "BTC"; Realtime.rp_szi := Some (Qc_of_Z 2);
      Realtime.rp_entryPx := Some (Qc_of_Z 40000);
      Realtime.rp_leverageValue := Some (Qc_of_Z 10);
      Realtime.rp_liquidationPx := None |}].

Definition sampleTracker : Realtime.Tracker :=
  Realtime.onClearinghouse "0xabc" samplePositions 1704067200000
    (Some (Qc_of_Z 41000)) (Realtime.constructor (EventQueue.constructor None)).

(** What the tracker handles between two priming calls in the run used
    below: a position notification, a priming call for another address,
    and a fill batch followed by its rate-limited priming call. *)
Definition sampleBetween : list Realtime.Action :=
  [Realtime.Clearinghouse "0xabc" [] 1704067201000 None;
   Realtime.Prime "0xdef" None 1704067202000;
   Realtime.UserEvents "0xabc" [(sampleFill, 1704067203000, Some 42)]
     1704067204000].

(** ** The load-more rate limiter ([canLoadMore] of queue.ts) *)

Module RateLimit.

Record RateState := { lastAt : Z }.

(** [canLoadMore(state, minIntervalMs)]; [now] is the read of
    [Date.now()].  The state is updated in place when the call is let
    through. *)
Definition canLoadMore (state : RateState) (minIntervalMs now : Z)
  : bool * RateState :=
  if bool_decide (now - lastAt state < minIntervalMs) then (false, state)
  else (true, {| lastAt := now |}).

(** The clock reads of the calls that are let through, in a run of calls
    on one state. *)
Fixpoint accepted (state : RateState) (minIntervalMs : Z) (clock : list Z)
  : list Z :=
  match clock with
  | [] => []
  | now :: rest =>
      let '(ok, state') := canLoadMore state minIntervalMs now in
      if ok then now :: accepted state' minIntervalMs rest
      else accepted state' minIntervalMs rest
  end.

End RateLimit.

(** ** The HTTP and WebSocket front of server.ts *)

Module Server.

(** A JavaScript number that may be NaN ([None]); the infinities are not
    represented. *)
Definition jsNeg (x : option Qc) : option Qc := Qcopp <$> x.

Definition jsAdd (x y : option Qc) : option Qc :=
  match x, y with
  | Some a, Some b => Some (a + b)%Qc
  | _, _ => None
  end.

(** [x > 0], [x < 0] and [x === 0]; all false on NaN. *)
Definition jsPositive (x : option Qc) : bool :=
  match x with Some a => bool_decide (0 < a)%Qc | None => false end.

Definition jsNegative (x : option Qc) : bool :=
  match x with Some a => bool_decide (a < 0)%Qc | None => false end.

Definition jsZero (x : option Qc) : bool :=
  match x with Some a => bool_decide (a = 0%Qc) | None => false end.

(** [deriveActionLabel(startPosition, sz, side)]; [sideB] is [side === 'B']. *)
Definition deriveActionLabel (startPosition sz : option Qc) (sideB : bool)
  : string :=
  let delta := if sideB then sz else jsNeg sz in
  let newPos := jsAdd startPosition delta in
  if jsZero startPosition then
    if jsPositive delta then "Open Long (Open New)" else "Open Short (Open New)"
  else if jsPositive startPosition then
    if jsPositive delta then "Increase Long"
    else if jsZero newPos then "Close Long (Close All)" else "Decrease Long"
  else
    if jsNegative delta then "Increase Short"
    else if jsZero newPos then "Close Short (Close All)" else "Decrease Short".

(** What [Number(...)] makes of a query parameter: the parameter is
    absent, it is not a number, or it is the integer [n]. *)
Inductive QueryNumber := QAbsent | QNaN | QNum (n : Z).

(** [GET /api/changes]: the events and the [next] cursor of the answer.
    [since] is [Number(req.query.since ?? 0) || 0].  [limit] is
    [Math.min(1000, Math.max(1, Number(req.query.limit ?? 200)))]; when
    the parameter is not a number this is NaN, the page bound inside
    [listSince] is NaN too, and [slice(startIdx, NaN)] is empty. *)
Definition apiChanges (since limit : QueryNumber) (changes : EventQueue.t)
  : list ChangeEvent * Z :=
  let since := match since with QNum n => n | _ => 0 end in
  let events :=
    match limit with
    | QNaN => []
    | QAbsent =>
        EventQueue.listSince since (Some (Z.min 1000 (Z.max 1 200))) changes
    | QNum n =>
        EventQueue.listSince since (Some (Z.min 1000 (Z.max 1 n))) changes
    end in
  let next :=
    match list.last events with
    | Some e => seq e
    | None => EventQueue.latestSeq changes
    end in
  (events, next).

(** *** The WebSocket hub *)

(** The frames the server sends. *)
Inductive Frame :=
  | Hello (latestSeq : Z)
  | Batch (events : list ChangeEvent)
  | Events (events : list ChangeEvent).

(** [interface WSClient], with the socket reduced to whether its
    [readyState] is OPEN and to the frames sent on it so far. *)
Record WSClient := {
  lastSeq : Z;
  alive : bool;
  isOpen : bool;
  outbox : list Frame;
}.

(** The queue [changes], the [clients] set (a client is named by the
    number of its connection) and the number of connections so far. *)
Record Hub := {
  changes : EventQueue.t;
  clients : gmap nat WSClient;
  connections : nat;
}.

Definition hubStart (queue : EventQueue.t) : Hub :=
  {| changes := queue; clients := ∅; connections := 0 |}.

(** [ws.send(frame)]: nothing reaches a socket that is not open. *)
Definition send (frame : Frame) (c : WSClient) : WSClient :=
  if isOpen c then
    {| lastSeq := lastSeq c; alive := alive c; isOpen := isOpen c;
       outbox := outbox c ++ [frame] |}
  else c.

Definition setLastSeq (n : Z) (c : WSClient) : WSClient :=
  {| lastSeq := n; alive := alive c; isOpen := isOpen c; outbox := outbox c |}.

Definition setAlive (b : bool) (c : WSClient) : WSClient :=
  {| lastSeq := lastSeq c; alive := b; isOpen := isOpen c; outbox := outbox c |}.

Definition setOpen (b : bool) (c : WSClient) : WSClient :=
  {| lastSeq := lastSeq c; alive := alive c; isOpen := b; outbox := outbox c |}.

Definition withClients (cs : gmap nat WSClient) (h : Hub) : Hub :=
  {| changes := changes h; clients := cs; connections := connections h |}.

Definition withChanges (queue : EventQueue.t) (h : Hub) : Hub :=
  {| changes := queue; clients := clients h; connections := connections h |}.

(** [wss.on('connection', ...)] *)
Definition onConnection (h : Hub) : Hub :=
  let c := send (Hello (EventQueue.latestSeq (changes h)))
             {| lastSeq := 0; alive := true; isOpen := true; outbox := [] |} in
  {| changes := changes h;
     clients := <[connections h := c]> (clients h);
     connections := S (connections h) |}.

(** The body of [ws.on('message', ...)] for a message whose [since] is
    the number [since]. *)
Definition catchUp (since : Z) (queue : EventQueue.t) (c : WSClient) : WSClient :=
  let c1 := setLastSeq since c in
  let events := EventQueue.listSince since (Some 500) queue in
  match list.last events with
  | Some e => send (Batch events) (setLastSeq (seq e) c1)
  | None => c1
  end.

(** [ws.on('message', ...)]; [since] is [None] for a message that does
    not parse or has no numeric [since]. *)
Definition onMessage (id : nat) (since : option Z) (h : Hub) : Hub :=
  match since with
  | None => h
  | Some n => withClients (alter (catchUp n (changes h)) id (clients h)) h
  end.

Definition onPong (id : nat) (h : Hub) : Hub :=
  withClients (alter (setAlive true) id (clients h)) h.

Definition onClose (id : nat) (h : Hub) : Hub :=
  withClients (delete id (clients h)) h.

(** The body of the [for (const c of clients)] loop of [runBroadcast]. *)
Definition broadcastTo (queue : EventQueue.t) (c : WSClient) : WSClient :=
  if isOpen c then
    let events := EventQueue.listSince (lastSeq c) (Some 200) queue in
    match list.last events with
    | Some e => send (Events events) (setLastSeq (seq e) c)
    | None => c
    end
  else c.

Definition runBroadcast (h : Hub) : Hub :=
  withClients (broadcastTo (changes h) <$> clients h) h.

(** The interval chosen by [scheduleBroadcast]. *)
Definition broadcastInterval (count : nat) : Z :=
  if bool_decide (25 < count)%nat then 250
  else if bool_decide (10 < count)%nat then 500 else 1000.

(** The heartbeat timer: clients that did not answer the last ping are
    terminated and removed, the others are marked and pinged. *)
Definition heartbeat (h : Hub) : Hub :=
  withClients
    (setAlive false <$> filter (λ kc, alive kc.2 = true) (clients h)) h.

(** What happens to the hub, one event at a time. *)
Inductive HubEvent :=
  | Pushed (evt : EventBody)
  | WasReset
  | Connected
  | Message (id : nat) (since : option Z)
  | Pong (id : nat)
  | Closed (id : nat)
  | SocketClosing (id : nat)
  | BroadcastTick
  | HeartbeatTick.

Definition hubStep (ev : HubEvent) (h : Hub) : Hub :=
  match ev with
  | Pushed evt => withChanges (EventQueue.push evt (changes h)).2 h
  | WasReset => withChanges (EventQueue.reset (changes h)) h
  | Connected => onConnection h
  | Message id since => onMessage id since h
  | Pong id => onPong id h
  | Closed id => onClose id h
  | SocketClosing id => withClients (alter (setOpen false) id (clients h)) h
  | BroadcastTick => runBroadcast h
  | HeartbeatTick => heartbeat h
  end.

Definition hubRun (run : list HubEvent) (h : Hub) : Hub :=
  foldl (λ h ev, hubStep ev h) h run.

(** The events sent to a client so far, in the order sent. *)
Definition frameEvents (f : Frame) : list ChangeEvent :=
  match f with
  | Hello _ => []
  | Batch events | Events events => events
  end.

Definition delivered (c : WSClient) : list ChangeEvent :=
  outbox c ≫= frameEvents.

(** A run in which no client asks to catch up from below a number it has
    already been sent. *)
Fixpoint forwardRun (run : list HubEvent) (h : Hub) : Prop :=
  match run with
  | [] => True
  | ev :: rest =>
      match ev with
      | Message id (Some since) =>
          ∀ c, clients h !! id = Some c →
               Forall (λ e, seq e ≤ since) (delivered c)
      | _ => True
      end
      ∧ forwardRun rest (hubStep ev h)
  end.

End Server.

(** ** The tracker's address set and freshness sweep (realtime.ts) *)

Module Tracking.
Import Realtime.

(** A run of the tracker in which a priming task ends only while it is
    in flight, as the promise machinery has it. *)
Fixpoint validRun (run : list Action) (s : Tracker) : Prop :=
  match run with
  | [] => True
  | a :: rest =>
      match a with
      | PrimeSettled addr _ _ _ _ => is_Some (primeInflight s !! addr)
      | _ => True
      end
      ∧ validRun rest (act a s)
  end.

Definition endsPrime (addr : string) (a : Action) : bool :=
  match a with
  | PrimeSettled addr' _ _ _ _ => bool_decide (addr' = addr)
  | _ => false
  end.

(** How many priming tasks of [addr] ended in a run. *)
Definition settledFor (addr : string) (run : list Action) : nat :=
  length (filter (λ a, endsPrime addr a = true) run).

(** The staleness test of [ensureFreshSnapshots]: no snapshot, or one
    older than [maxAgeMs]. *)
Definition isStale (maxAgeMs now : Z) (snap : option (PositionSnapshot * Z))
  : bool :=
  match snap with
  | None => true
  | Some (_, updatedAt) => bool_decide (maxAgeMs < now - updatedAt)
  end.

(** The [for (const addr of addrs)] loop of [ensureFreshSnapshots]: the
    promises collected in [tasks], and the tracker after the loop. *)
Fixpoint sweep (addrs : list string) (maxAgeMs now : Z) (s : Tracker)
  : list PrimeOutcome * Tracker :=
  match addrs with
  | [] => ([], s)
  | addr :: rest =>
      if isStale maxAgeMs now (snapshots s !! addr) then
        let '(task, s1) :=
          primeFromHttp addr
            (Some {| force := Some true; minIntervalMs := None |}) now s in
        let '(tasks, s2) := sweep rest maxAgeMs now s1 in
        (task :: tasks, s2)
      else sweep rest maxAgeMs now s
  end.

(** [ensureFreshSnapshots(maxAgeMs = 60000)] up to its
    [Promise.allSettled]; [addresses] is what [getAddresses()] answered
    and [now] the read of [Date.now()]. *)
Definition ensureFreshSnapshots (addresses : list string) (maxAgeMs : option Z)
    (now : Z) (s : Tracker) : list PrimeOutcome * Tracker :=
  sweep (toLowerCase <$> addresses) (default 60000 maxAgeMs) now s.

(** The tracker with the keys of its [subs] map; the subscription
    handles themselves are not represented. *)
Record Subscribed := { tracker : Tracker; subs : gset string }.

(** [this.subs.delete(addr); this.snapshots.delete(addr)] *)
Definition dropAddress (addr : string) (sb : Subscribed) : Subscribed :=
  let s := tracker sb in
  {| tracker :=
       {| snapshots := delete addr (snapshots s); q := q s;
          primeInflight := primeInflight s; lastPrimeAt := lastPrimeAt s;
          writes := writes s; pulls := pulls s; tasks := tasks s |};
     subs := subs sb ∖ {[addr]} |}.

(** The first loop of [refresh]: every subscribed address that is not in
    [addrs] is unsubscribed and dropped.  The addresses are taken in the
    order [elements] lists them; the outcome does not depend on it. *)
Definition unsubscribeRemoved (addrs : list string) (sb : Subscribed)
  : Subscribed :=
  foldr (λ addr acc, if decide (addr ∈ addrs) then acc else dropAddress addr acc)
    sb (elements (subs sb)).

(** [subscribeAddress(addr)]: the address is recorded in [subs] and, when
    no snapshot of it is stored, a priming call is made. *)
Definition subscribeAddress (addr : string) (now : Z) (sb : Subscribed)
  : Subscribed :=
  let primed :=
    if decide (is_Some (snapshots (tracker sb) !! addr)) then tracker sb
    else (primeFromHttp addr None now (tracker sb)).2 in
  {| tracker := primed; subs := {[addr]} ∪ subs sb |}.

(** The second loop of [refresh]. *)
Definition subscribeNew (addrs : list string) (now : Z) (sb : Subscribed)
  : Subscribed :=
  foldl (λ acc addr,
           if decide (addr ∈ subs acc) then acc
           else subscribeAddress addr now acc)
    sb addrs.

(** [refresh()], run with no other handler in between; [addresses] is
    what [getAddresses()] answered. *)
Definition refresh (addresses : list string) (now : Z) (sb : Subscribed)
  : Subscribed :=
  let addrs := toLowerCase <$> addresses in
  subscribeNew addrs now (unsubscribeRemoved addrs sb).

End Tracking.

(** The transaction identity a row carries for [tradeKey]: its [tx], else
    its [hash], when one of them is a non-empty string. *)
Definition txIdentity (t : Pagination.TradeRow) : option string :=
  match truthy (Pagination.tr_tx t) with
  | Some tx => Some tx
  | None => truthy (Pagination.tr_hash t)
  end.

(** The wording [deriveActionLabel] uses for a label of the live fill
    handler: opening and closing labels get a suffix. *)
Definition backfillWording (label : string) : string :=
  if decide (label = "Open Long") then "Open Long (Open New)"
  else if decide (label = "Open Short") then "Open Short (Open New)"
  else if decide (label = "Close Long") then "Close Long (Close All)"
  else if decide (label = "Close Short") then "Close Short (Close All)"
  else label.

(** A hub on the sample queue with one client connected. *)
Definition sampleHub : Server.Hub :=
  Server.onConnection (Server.hubStart sampleQueue).

(** What is kept true of a client of the hub: the events sent to it so
    far carry increasing numbers, none above its cursor, and no frame of
    events is empty. *)
Definition frameOk (f : Server.Frame) : Prop :=
  match f with
  | Server.Hello _ => True
  | Server.Batch events | Server.Events events => events ≠ []
  end.

Definition clientOk (c : Server.WSClient) : Prop :=
  StronglySorted Z.lt (seq <$> Server.delivered c)
  ∧ Forall (λ e, seq e ≤ Server.lastSeq c) (Server.delivered c)
  ∧ Forall frameOk (Server.outbox c).

Definition hubOk (h : Server.Hub) : Prop :=
  EventQueue.reachable (Server.changes h)
  ∧ map_Forall (λ _ c, clientOk c) (Server.clients h).

(** A short life of the hub: a client connects, asks to catch up from
    1, an event is pushed, and the broadcast timer fires. *)
Definition sampleHubRun : list Server.HubEvent :=
  [Server.Connected; Server.Message 0 (Some 1);
   Server.Pushed (sampleTrade "0x3"); Server.BroadcastTick].

(** A batch of fills none of which the handler can use: another coin, and
    a BTC fill whose size is not a number. *)
Definition sampleUnusableFills : list (Realtime.RawFill * Z * option Z) :=
  [({| Realtime.f_coin := "ETH"; Realtime.f_px := Some (Qc_of_Z 2000);
       Realtime.f_sz := Some (Qc_of_Z 1); Realtime.f_isBuy := true;
       Realtime.f_startPosition := Some (Qc_of_Z 0);
       Realtime.f_hash := None; Realtime.f_fee := None;
       Realtime.f_feeToken := None; Realtime.f_closedPnl := None;
       Realtime.f_time := None |}, 1704067200000, Some 7);
   ({| Realtime.f_coin := "BTC"; Realtime.f_px := Some (Qc_of_Z 50000);
       Realtime.f_sz := None; Realtime.f_isBuy := true;
       Realtime.f_startPosition := Some (Qc_of_Z 0);
       Realtime.f_hash := None; Realtime.f_fee := None;
       Realtime.f_feeToken := None; Realtime.f_closedPnl := None;
       Realtime.f_time := None |}, 1704067200000, Some 8)].


(** A fill the handler cannot use: not BTC, or a price, size or start
    position that is not a finite number. *)
Definition unusable (f : Realtime.RawFill) : Prop :=
  Realtime.isBtc (Realtime.f_coin f) = false
  ∨ Realtime.f_px f = None ∨ Realtime.f_sz f = None
  ∨ Realtime.f_startPosition f = None.

(** How many priming tasks of [addr] are in flight (none or one), and
    how many pulls were issued for it. *)
Definition inflightCount (addr : string) (s : Realtime.Tracker) : nat :=
  match Realtime.primeInflight s !! addr with Some _ => 1 | None => 0 end.

Definition pullCount (addr : string) (s : Realtime.Tracker) : nat :=
  length (filter (λ a, a = addr) (Realtime.pulls s)).

(** A tracker subscribed to two addresses, with the priming task of
    the second still in flight. *)
Definition sampleSubscribed : Tracking.Subscribed :=
  {| Tracking.tracker :=
       (Realtime.primeFromHttp "0xdef" None 1704067200500 sampleTracker).2;
     Tracking.subs := {["0xabc"; "0xdef"]} |}.

(** * Properties *)

(** ** The event queue *)

Section EventQueueFacts.
Import EventQueue.

Lemma keepLast_length c l :
  0 ≤ c → Z.of_nat (length (keepLast c l)) = Z.min (Z.of_nat (length l)) c.
Proof. intros Hc. unfold keepLast. rewrite length_drop. lia. Qed.

Lemma keepLast_app c l k :
  0 ≤ c → keepLast c (keepLast c l ++ k) = keepLast c (l ++ k).
Proof.
  intros Hc. unfold keepLast at 1 3.
  rewrite !length_app, (Nat2Z.inj_add (length (keepLast _ _))).
  rewrite keepLast_length by done. unfold keepLast.
  set (a := Z.to_nat (Z.of_nat (length l) - c)).
  rewrite <- (drop_app_le l k a) by lia.
  rewrite drop_drop. f_equal. lia.
Qed.

Lemma push_buffer e q :
  buffer (push e q).2
  = keepLast (capacity q) (buffer q ++ [{| seq := nextSeq q; body := e |}]).
Proof.
  unfold push, keepLast, splice0; simpl. case_bool_decide as Hlen; [done|].
  replace (Z.to_nat _) with 0%nat by lia. done.
Qed.

Lemma push_result e q : (push e q).1 = {| seq := nextSeq q; body := e |}.
Proof. done. Qed.

Lemma push_nextSeq e q : nextSeq (push e q).2 = nextSeq q + 1.
Proof. done. Qed.

Lemma push_capacity e q : capacity (push e q).2 = capacity q.
Proof. done. Qed.

Lemma pushAll_cons e evts q :
  pushAll (e :: evts) q
  = ((push e q).1 :: (pushAll evts (push e q).2).1,
     (pushAll evts (push e q).2).2).
Proof. simpl. by destruct (pushAll evts _). Qed.

Lemma pushAll_length evts q : length (pushAll evts q).1 = length evts.
Proof.
  revert q. induction evts as [|e evts IH]; intros q; [done|].
  rewrite pushAll_cons. simpl. by rewrite IH.
Qed.

Lemma pushAll_capacity evts q : capacity (pushAll evts q).2 = capacity q.
Proof.
  revert q. induction evts as [|e evts IH]; intros q; [done|].
  rewrite pushAll_cons. simpl. by rewrite IH.
Qed.

Lemma pushAll_nextSeq evts q :
  nextSeq (pushAll evts q).2 = nextSeq q + Z.of_nat (length evts).
Proof.
  revert q. induction evts as [|e evts IH]; intros q; [simpl; lia|].
  rewrite pushAll_cons. cbn [fst snd length]. rewrite IH, push_nextSeq. lia.
Qed.

(** The numbers handed out by a run are [nextSeq], [nextSeq + 1], ... *)
Lemma pushAll_seqs evts q :
  seq <$> (pushAll evts q).1 = seqZ (nextSeq q) (Z.of_nat (length evts)).
Proof.
  revert q. induction evts as [|e evts IH]; intros q; [done|].
  rewrite pushAll_cons. cbn [fst fmap list_fmap length].
  change (list_fmap _ _ seq) with (fmap (M:=list) seq).
  rewrite IH, push_nextSeq, push_result. simpl seq.
  rewrite (seqZ_cons (nextSeq q)) by lia. do 2 f_equal; lia.
Qed.

Lemma pushAll_bodies evts q : body <$> (pushAll evts q).1 = evts.
Proof.
  revert q. induction evts as [|e evts IH]; intros q; [done|].
  rewrite pushAll_cons. cbn [fst fmap list_fmap].
  change (list_fmap _ _ body) with (fmap (M:=list) body).
  by rewrite IH.
Qed.

(** After a run the buffer is the tail of "old buffer, then the stamped
    events", cut to the capacity. *)
Lemma pushAll_buffer evts q :
  0 ≤ capacity q →
  Z.of_nat (length (buffer q)) ≤ capacity q →
  buffer (pushAll evts q).2
  = keepLast (capacity q) (buffer q ++ (pushAll evts q).1).
Proof.
  intros Hc. revert q Hc.
  induction evts as [|e evts IH]; intros q Hc Hlen.
  - simpl. rewrite app_nil_r. unfold keepLast.
    replace (Z.to_nat _) with 0%nat by lia. done.
  - rewrite pushAll_cons. cbn [fst snd].
    rewrite IH; rewrite ?push_capacity; [|done|].
    + rewrite push_buffer, keepLast_app, <- app_assoc by done. done.
    + rewrite push_buffer, keepLast_length by done. lia.
Qed.

Lemma drop_seqZ (n : nat) m len :
  drop n (seqZ m len) = seqZ (m + Z.of_nat n) (len - Z.of_nat n).
Proof.
  apply list_eq; intros i. rewrite lookup_drop.
  destruct (decide (Z.of_nat (n + i) < len)) as [Hlt|Hge].
  - rewrite !lookup_seqZ_lt by lia. f_equal; lia.
  - rewrite !lookup_seqZ_ge by lia. done.
Qed.

Lemma constructor_inv cap : inv (constructor cap).
Proof. split; simpl; try lia. done. Qed.

Lemma reset_inv q : inv q → inv (reset q).
Proof. intros []. split; simpl; try lia. done. Qed.

Lemma push_inv e q : inv q → inv (push e q).2.
Proof.
  intros [Hcap Hlen Hseqs Hnext].
  assert (Hl : Z.of_nat (length (buffer (push e q).2))
               = Z.min (Z.of_nat (length (buffer q)) + 1) (capacity q)).
  { rewrite push_buffer, keepLast_length, length_app by lia. simpl. lia. }
  split; rewrite ?push_capacity, ?push_nextSeq; try lia.
  rewrite Hl. rewrite push_buffer. unfold keepLast.
  rewrite fmap_drop, fmap_app, Hseqs, length_app. simpl.
  set (len := Z.of_nat (length (buffer q))) in *.
  replace [nextSeq q] with (seqZ (nextSeq q - len + len) 1)
    by (rewrite Z.sub_add; done).
  rewrite <- seqZ_app, drop_seqZ by lia.
  f_equal; lia.
Qed.

Lemma reachable_inv q : reachable q → inv q.
Proof.
  induction 1; auto using constructor_inv, push_inv, reset_inv.
Qed.

End EventQueueFacts.

Section ListSinceFacts.
Import EventQueue.

Lemma seqZ_StronglySorted m n : StronglySorted Z.lt (seqZ m n).
Proof.
  destruct (decide (n ≤ 0)) as [Hn|Hn]; [rewrite seqZ_nil by done; constructor|].
  rewrite <- (Z2Nat.id n) by lia. generalize (Z.to_nat n) as k. clear.
  intros k. revert m. induction k as [|k IH]; intros m; [constructor|].
  rewrite seqZ_cons by lia. constructor.
  - replace (Z.pred (Z.of_nat (S k))) with (Z.of_nat k) by lia. apply IH.
  - apply Forall_seqZ. lia.
Qed.

Lemma listSince_unfold s limit q :
  listSince s limit q
  = match list_find (λ e, s < seq e) (buffer q) with
    | None => []
    | Some (i, _) => take (Z.to_nat (pageSize (default 200 limit))) (drop i (buffer q))
    end.
Proof.
  unfold listSince, findIndex, slice.
  destruct (list_find _ _) as [[i x]|]; [|done]. cbn [fmap option_fmap option_map fst].
  rewrite Z.add_simpl_l, Nat2Z.id. done.
Qed.

Lemma filter_all {A} (P : A → Prop) `{!∀ x, Decision (P x)} (l : list A) :
  Forall P l → filter P l = l.
Proof.
  induction 1 as [|x l Hx _ IH]; [done|].
  rewrite filter_cons_True by done. by rewrite IH.
Qed.

Lemma filter_none {A} (P : A → Prop) `{!∀ x, Decision (P x)} (l : list A) :
  Forall (λ x, ¬ P x) l → filter P l = [].
Proof.
  induction 1 as [|x l Hx _ IH]; [done|]. by rewrite filter_cons_False.
Qed.

(** In a buffer whose sequence numbers increase, the events after the
    first one above [s] are exactly the events above [s]. *)
Lemma find_drop_filter s (l : list ChangeEvent) :
  StronglySorted Z.lt (seq <$> l) →
  match list_find (λ e, s < seq e) l with
  | None => []
  | Some (i, _) => drop i l
  end = filter (λ e, s < seq e) l.
Proof.
  induction l as [|x l IH]; intros Hs; [done|].
  rewrite fmap_cons in Hs. apply StronglySorted_inv in Hs as [Hs Hx].
  cbn [list_find]. rewrite filter_cons. case_decide as Hp.
  - cbn [drop]. f_equal. symmetry. apply filter_all.
    rewrite Forall_fmap in Hx. eapply Forall_impl; [exact Hx|].
    intros e He. simpl in He. lia.
  - rewrite <- IH by done.
    destruct (list_find _ l) as [[i y]|]; done.
Qed.

Lemma inv_sorted q : inv q → StronglySorted Z.lt (seq <$> buffer q).
Proof. intros Hq. rewrite (inv_seqs _ Hq). apply seqZ_StronglySorted. Qed.

(** On a reachable queue [listSince] is the first page of the retained
    events above [s]. *)
Lemma listSince_filter s limit q :
  inv q →
  listSince s limit q
  = take (Z.to_nat (pageSize (default 200 limit)))
         (filter (λ e, s < seq e) (buffer q)).
Proof.
  intros Hq. rewrite listSince_unfold.
  rewrite <- (find_drop_filter s (buffer q)) by by apply inv_sorted.
  destruct (list_find _ _) as [[i y]|]; [done|]. by rewrite take_nil.
Qed.

Lemma pageSize_bounds limit : 1 ≤ pageSize limit ≤ 1000.
Proof. unfold pageSize. lia. Qed.

End ListSinceFacts.

Section EventQueueClaims.
Import EventQueue.

Lemma pushAll_inv evts q : inv q → inv (pushAll evts q).2.
Proof.
  revert q. induction evts as [|e evts IH]; intros q Hq; [done|].
  rewrite pushAll_cons. cbn [snd]. by apply IH, push_inv.
Qed.

Lemma pushAll_reachable evts q : reachable q → reachable (pushAll evts q).2.
Proof.
  revert q. induction evts as [|e evts IH]; intros q Hq; [done|].
  rewrite pushAll_cons. cbn [snd]. by apply IH, reach_push.
Qed.

(** C1. In any run of [push] calls the numbers handed out are
    [nextSeq], [nextSeq + 1], ...: each is one more than the one before,
    strictly above every earlier one, never handed out twice, and from a
    fresh queue they are [1 .. N] whatever the capacity (so eviction never
    frees a number).  After [reset] the buffer is empty and the next
    [push] gets 1. *)
Theorem push_sequence_numbers
    (q : EventQueue.t) (evts : list EventBody) (cap : option Z) (e : EventBody) :
  let run := pushAll evts q in
  seq <$> run.1 = seqZ (nextSeq q) (Z.of_nat (length evts))
  ∧ body <$> run.1 = evts
  ∧ StronglySorted Z.lt (seq <$> run.1)
  ∧ NoDup (seq <$> run.1)
  ∧ Forall (λ r, nextSeq q ≤ seq r) run.1
  ∧ nextSeq run.2 = nextSeq q + Z.of_nat (length evts)
  ∧ seq <$> (pushAll evts (constructor cap)).1
    = seqZ 1 (Z.of_nat (length evts))
  ∧ buffer (reset run.2) = []
  ∧ (push e (reset run.2)).1 = {| seq := 1; body := e |}.
Proof.
  intros run. subst run.
  pose proof (pushAll_seqs evts q) as Hseqs.
  split_and!.
  - exact Hseqs.
  - apply pushAll_bodies.
  - rewrite Hseqs. apply seqZ_StronglySorted.
  - rewrite Hseqs. apply NoDup_seqZ.
  - apply (Forall_fmap seq (λ s, nextSeq q ≤ s)). rewrite Hseqs.
    apply Forall_seqZ. lia.
  - apply pushAll_nextSeq.
  - apply (pushAll_seqs evts (constructor cap)).
  - done.
  - done.
Qed.

(** C2. Starting from [new EventQueue(C)], after [N] pushes the buffer
    holds exactly [min N (max 100 C)] events, they are the most recently
    pushed ones in push order, and the buffer is within capacity; with
    [C = 50] and 150 pushes, [listSince(0, 200)] returns the 100 events
    numbered 51 to 150. *)
Theorem bounded_retention (C : Z) (evts : list EventBody) (f : nat → EventBody) :
  let N := Z.of_nat (length evts) in
  let run := pushAll evts (constructor (Some C)) in
  let kept := Z.min N (Z.max 100 C) in
  capacity run.2 = Z.max 100 C
  ∧ Z.of_nat (length (buffer run.2)) = kept
  ∧ Z.of_nat (length (buffer run.2)) ≤ capacity run.2
  ∧ buffer run.2 = drop (Z.to_nat (N - kept)) run.1
  ∧ seq <$> buffer run.2 = seqZ (N - kept + 1) kept
  ∧ body <$> buffer run.2 = drop (Z.to_nat (N - kept)) evts
  ∧ seq <$> listSince 0 (Some 200)
              (pushAll (f <$> List.seq 0%nat 150%nat) (constructor (Some 50))).2
    = seqZ 51 100.
Proof.
  intros N run kept.
  assert (Hbuf : buffer run.2 = drop (Z.to_nat (N - kept)) run.1).
  { subst run. rewrite pushAll_buffer by (simpl; lia).
    unfold keepLast. cbn [constructor buffer capacity app default].
    rewrite pushAll_length. f_equal. subst N kept. unfold id. lia. }
  assert (Hlen : Z.of_nat (length (buffer run.2)) = kept).
  { rewrite Hbuf, length_drop. subst run. rewrite pushAll_length.
    subst N kept. lia. }
  assert (Hcap : capacity run.2 = Z.max 100 C).
  { subst run. by rewrite pushAll_capacity. }
  split_and!.
  - exact Hcap.
  - exact Hlen.
  - rewrite Hlen, Hcap. subst kept. lia.
  - exact Hbuf.
  - rewrite Hbuf, fmap_drop. subst run. rewrite pushAll_seqs, drop_seqZ.
    cbn [constructor nextSeq]. fold N. f_equal; subst kept; lia.
  - rewrite Hbuf, fmap_drop. subst run. by rewrite pushAll_bodies.
  - vm_compute. reflexivity.
Qed.

(** C9. On every queue reached by [push] and [reset], [listSince(s, limit)]
    is the first page of the retained events numbered above [s], in
    buffer order: a contiguous slice, every event above [s], at most 1000
    events whatever the limit; when [s] is below everything retained the
    page starts at the oldest retained event. *)
Theorem listSince_page (q : EventQueue.t) (s : Z) (limit : option Z) :
  reachable q →
  let r := listSince s limit q in
  let page := Z.to_nat (pageSize (default 200 limit)) in
  r = take page (filter (λ e, s < seq e) (buffer q))
  ∧ Forall (λ e, s < seq e) r
  ∧ (length r ≤ 1000)%nat
  ∧ StronglySorted Z.lt (seq <$> r)
  ∧ (∃ k, r = take page (drop k (buffer q)))
  ∧ (Forall (λ e, s < seq e) (buffer q) → r = take page (buffer q)).
Proof.
  intros Hq r page. apply reachable_inv in Hq.
  assert (Hr : r = take page (filter (λ e, s < seq e) (buffer q)))
    by by apply listSince_filter.
  pose proof (pageSize_bounds (default 200 limit)) as Hp.
  split_and!.
  - exact Hr.
  - rewrite Hr. apply Forall_take, Forall_forall.
    intros e He. by apply list_elem_of_filter in He as [? _].
  - rewrite Hr, length_take. subst page. lia.
  - subst r. rewrite listSince_unfold.
    destruct (list_find _ _) as [[i y]|]; [|constructor].
    rewrite fmap_take, fmap_drop, (inv_seqs _ Hq), drop_seqZ.
    eapply StronglySorted_app_1_l. rewrite take_drop.
    apply seqZ_StronglySorted.
  - subst r. rewrite listSince_unfold.
    destruct (list_find _ _) as [[i y]|]; [by exists i|].
    exists (length (buffer q)). by rewrite drop_all, take_nil.
  - intros Hall. rewrite Hr. by rewrite filter_all.
Qed.

Lemma sampleQueue_reachable : reachable sampleQueue.
Proof. apply pushAll_reachable, reach_new. Qed.

Lemma listSince_page_witness :
  reachable sampleQueue
  ∧ seq <$> listSince 1 (Some 5000) sampleQueue = [2; 3]
  ∧ (length (listSince 1%Z (Some 5000%Z) sampleQueue) ≤ 1000)%nat.
Proof.
  split; [exact sampleQueue_reachable|].
  destruct (listSince_page sampleQueue 1 (Some 5000) sampleQueue_reachable)
    as (_ & _ & Hlen & _).
  split; [reflexivity | exact Hlen].
Defined.

(** C10. A limit of zero or less is raised to one: when some retained
    event is numbered above [s], [listSince(s, limit)] returns exactly one
    event, the first retained one above [s]. *)
Theorem listSince_limit_floor (q : EventQueue.t) (s limit : Z) :
  limit ≤ 0 →
  Exists (λ e, s < seq e) (buffer q) →
  ∃ e, listSince s (Some limit) q = [e]
       ∧ s < seq e
       ∧ head (filter (λ e, s < seq e) (buffer q)) = Some e.
Proof.
  intros Hlimit Hex. rewrite listSince_unfold.
  apply Exists_exists in Hex as (x & Hx & Hsx).
  destruct (list_find_elem_of (λ e, s < seq e) (buffer q) x Hx Hsx)
    as [[i y] Hfind].
  rewrite Hfind. apply list_find_Some in Hfind as (Hi & Hy & Hbefore).
  exists y. change (default 200 (Some limit)) with limit. unfold pageSize.
  replace (Z.to_nat _) with 1%nat by lia.
  rewrite (drop_S _ _ _ Hi). split_and!; [done..|].
  rewrite <- (take_drop i (buffer q)), filter_app, (drop_S _ _ _ Hi).
  rewrite filter_cons_True by done.
  replace (filter _ (take i (buffer q))) with (@nil ChangeEvent); [done|].
  symmetry. apply filter_none, Forall_forall. intros z Hz.
  apply list_elem_of_lookup in Hz as [j Hj].
  apply lookup_take_Some in Hj as [Hj Hji]. eauto.
Qed.

Lemma listSince_limit_floor_witness :
  0 ≤ 0
  ∧ Exists (λ e, 1 < seq e) (buffer sampleQueue)
  ∧ ∃ e, listSince 1 (Some 0) sampleQueue = [e]
         ∧ 1 < seq e
         ∧ head (filter (λ e, 1 < seq e) (buffer sampleQueue)) = Some e.
Proof.
  assert (Hex : Exists (λ e, 1 < seq e) (buffer sampleQueue)).
  { apply Exists_cons_tl, Exists_cons_hd. simpl. lia. }
  split; [lia|]. split; [exact Hex|].
  apply (listSince_limit_floor sampleQueue 1 0); [lia | exact Hex].
Defined.

End EventQueueClaims.

(** ** Merging trade pages *)

Section MergeFacts.
Import Pagination.

Variable getTime : string → option Z.

Local Abbreviation sortTrades := (sortTrades getTime).
Local Abbreviation insertSorted := (insertSorted getTime).
Local Abbreviation mergeTrades := (mergeTrades getTime).
Local Abbreviation descTimeId := (descTimeId getTime).
Local Abbreviation wellFormed := (wellFormed getTime).
Local Abbreviation comesAfter := (comesAfter getTime).

Lemma additionsFrom_fresh seen incoming t :
  t ∈ additionsFrom seen incoming → t ∈ incoming ∧ tradeKey t ∉ seen.
Proof.
  revert seen. induction incoming as [|x rest IH]; intros seen; simpl.
  - by intros ?%elem_of_nil.
  - case_decide as Hx.
    + intros [? ?]%IH. split; [by constructor|done].
    + intros [->|Hin]%elem_of_cons; [split; [by constructor|done]|].
      apply IH in Hin as [? Hk]. split; [by constructor|].
      by apply not_elem_of_union in Hk as [_ ?].
Qed.


Lemma additionsFrom_seen seen incoming :
  Forall (λ t, tradeKey t ∈ seen) incoming → additionsFrom seen incoming = [].
Proof.
  induction 1 as [|x rest Hx _ IH]; simpl; [done|]. by case_decide.
Qed.

Lemma additionsFrom_NoDup seen incoming :
  NoDup (tradeKey <$> additionsFrom seen incoming).
Proof.
  revert seen. induction incoming as [|x rest IH]; intros seen; simpl.
  - constructor.
  - case_decide as Hx; [apply IH|].
    rewrite fmap_cons. constructor; [|apply IH].
    intros (y & Hy & Hin)%list_elem_of_fmap.
    apply additionsFrom_fresh in Hin as [_ Hk]. set_solver.
Qed.

Lemma filter_ext_in {A} (P Q : A → Prop)
    `{!∀ x, Decision (P x)} `{!∀ x, Decision (Q x)} (l : list A) :
  Forall (λ x, P x ↔ Q x) l → filter P l = filter Q l.
Proof.
  induction 1 as [|x l Hx _ IH]; [done|].
  rewrite !filter_cons, IH. repeat case_decide; tauto.
Qed.


Lemma insertSorted_Permutation x l : insertSorted x l ≡ₚ x :: l.
Proof.
  induction l as [|y l IH]; simpl; [done|].
  destruct (comesAfter x y); [|done]. rewrite IH. apply Permutation_swap.
Qed.

Lemma sortTrades_Permutation l : sortTrades l ≡ₚ l.
Proof.
  induction l as [|x l IH]; simpl; [done|].
  unfold Pagination.sortTrades in *. simpl.
  rewrite insertSorted_Permutation. by rewrite IH.
Qed.

Lemma mergeTrades_Permutation existing incoming :
  mergeTrades existing incoming
  ≡ₚ existing
     ++ additionsFrom (list_to_set (tradeKey <$> existing)) incoming.
Proof.
  unfold Pagination.mergeTrades. case_bool_decide as Hlen.
  - apply nil_length_inv in Hlen. rewrite Hlen. by rewrite app_nil_r.
  - apply sortTrades_Permutation.
Qed.




(** *** The comparator on well-formed rows *)

Lemma descTimeId_wellFormed a b : descTimeId a b → wellFormed a ∧ wellFormed b.
Proof.
  unfold Pagination.descTimeId, Pagination.wellFormed.
  destruct (getTime (tr_time a)), (getTime (tr_time b)),
    (tr_id a), (tr_id b); try done; intros _; repeat split; eauto.
Qed.

Lemma descTimeId_trans a b c : descTimeId a b → descTimeId b c → descTimeId a c.
Proof.
  unfold Pagination.descTimeId.
  destruct (getTime (tr_time a)), (getTime (tr_time b)),
    (getTime (tr_time c)), (tr_id a), (tr_id b), (tr_id c); try done; lia.
Qed.

Lemma comesAfter_desc a b :
  wellFormed a → wellFormed b →
  if comesAfter a b then descTimeId b a ∧ ¬ descTimeId a b else descTimeId a b.
Proof.
  unfold Pagination.wellFormed, Pagination.comesAfter,
    Pagination.compareTrades, Pagination.descTimeId.
  intros [[ta ->] [ia ->]] [[tb ->] [ib ->]].
  repeat case_bool_decide; lia.
Qed.





End MergeFacts.



(** ** The fill handler *)

Section FillFacts.
Import Realtime.

Lemma Qclt_irrefl (x : Qc) : ¬ (x < x)%Qc.
Proof. apply (irreflexivity Qclt). Qed.

Lemma Qclt_asym (x y : Qc) : (x < y)%Qc → ¬ (y < x)%Qc.
Proof. intros H1 H2. apply (Qclt_irrefl x). by eapply Qclt_trans. Qed.


Lemma fillTrade_processed addr f now px sz sp :
  isBtc (f_coin f) = true →
  f_px f = Some px → f_sz f = Some sz → f_startPosition f = Some sp →
  ∃ payload mkEvent,
    fillTrade addr f now = Some (payload, mkEvent)
    ∧ ∀ dbId,
        let delta := fillDelta (if f_isBuy f then Buy else Sell) sz in
        let newPos := (sp + delta)%Qc in
        t_effect (mkEvent dbId) = fillEffect sp newPos
        ∧ t_direction (mkEvent dbId) = fillDirection delta newPos
        ∧ t_action (mkEvent dbId) = Some (actionLabel sp delta newPos)
        ∧ pay_action payload = actionLabel sp delta newPos.
Proof.
  intros Hcoin Hpx Hsz Hsp. unfold fillTrade.
  rewrite Hcoin, Hpx, Hsz, Hsp. cbn [negb]. by eexists _, _.
Qed.


Lemma sampleFill_guards :
  isBtc (f_coin sampleFill) = true
  ∧ f_px sampleFill = Some (Qc_of_Z 50000)
  ∧ f_sz sampleFill = Some (Qc_of_Z 5)
  ∧ f_startPosition sampleFill = Some (Qc_of_Z 5).
Proof. by split_and!. Qed.


Lemma Qcopp_neg (x : Qc) : (0 < x)%Qc → (- x < 0)%Qc.
Proof.
  intros Hx. apply Qclt_minus_iff.
  by rewrite Qcopp_involutive, Qcplus_0_l.
Qed.

Lemma actionLabel_flat delta newPos :
  actionLabel 0 delta newPos
  = if bool_decide (0 < delta)%Qc then "Open Long" else "Open Short".
Proof. unfold actionLabel. by rewrite bool_decide_eq_true_2. Qed.

Lemma actionLabel_long sp delta newPos :
  (0 < sp)%Qc →
  actionLabel sp delta newPos
  = if bool_decide (0 < delta)%Qc then "Increase Long"
    else if bool_decide (newPos = 0%Qc) then "Close Long" else "Decrease Long".
Proof.
  intros Hsp. unfold actionLabel.
  rewrite bool_decide_eq_false_2 by (symmetry; by apply Qclt_not_eq).
  by rewrite (bool_decide_eq_true_2 (0 < sp)%Qc).
Qed.

Lemma actionLabel_short sp delta newPos :
  (sp < 0)%Qc →
  actionLabel sp delta newPos
  = if bool_decide (delta < 0)%Qc then "Increase Short"
    else if bool_decide (newPos = 0%Qc) then "Close Short" else "Decrease Short".
Proof.
  intros Hsp. unfold actionLabel.
  rewrite bool_decide_eq_false_2 by by apply Qclt_not_eq.
  rewrite bool_decide_eq_false_2 by by apply Qclt_asym.
  by rewrite (bool_decide_eq_true_2 (sp < 0)%Qc).
Qed.

(** C4. A fill that passes the guards is labelled by the table keyed by
    the sign of the starting position, the sign of the delta and whether
    the new position is zero: from flat, "Open Long" for a positive delta
    and "Open Short" otherwise; from long, "Increase Long" for a positive
    delta, else "Close Long" when the new position is zero and "Decrease
    Long" when not; from short, "Increase Short" for a negative delta,
    else "Close Short" or "Decrease Short" in the same way.  For a
    positive size a buy has a positive delta and a sell a negative one,
    so the table reads by side: long and buy, "Increase Long"; long and
    sell, "Close Long" or "Decrease Long"; and the mirror image from
    short. *)
Theorem fill_action_label
    (addr : string) (f : RawFill) (now : Z) (px sz sp : Qc) :
  isBtc (f_coin f) = true →
  f_px f = Some px → f_sz f = Some sz → f_startPosition f = Some sp →
  let delta := if f_isBuy f then sz else (- sz)%Qc in
  let newPos := (sp + delta)%Qc in
  ∃ payload mkEvent,
    fillTrade addr f now = Some (payload, mkEvent)
    ∧ ∀ dbId,
        t_action (mkEvent dbId) = Some (pay_action payload)
        ∧ (sp = 0%Qc →
           pay_action payload
           = if bool_decide (0 < delta)%Qc then "Open Long" else "Open Short")
        ∧ ((0 < sp)%Qc → (0 < delta)%Qc → pay_action payload = "Increase Long")
        ∧ ((0 < sp)%Qc → ¬ (0 < delta)%Qc →
           pay_action payload
           = if bool_decide (newPos = 0%Qc) then "Close Long"
             else "Decrease Long")
        ∧ ((sp < 0)%Qc → (delta < 0)%Qc → pay_action payload = "Increase Short")
        ∧ ((sp < 0)%Qc → ¬ (delta < 0)%Qc →
           pay_action payload
           = if bool_decide (newPos = 0%Qc) then "Close Short"
             else "Decrease Short")
        ∧ ((0 < sz)%Qc →
           (if f_isBuy f then (0 < delta)%Qc else (delta < 0)%Qc)
           ∧ ((0 < sp)%Qc →
              pay_action payload
              = if f_isBuy f then "Increase Long"
                else if bool_decide (newPos = 0%Qc) then "Close Long"
                else "Decrease Long")
           ∧ ((sp < 0)%Qc →
              pay_action payload
              = if f_isBuy f
                then if bool_decide (newPos = 0%Qc) then "Close Short"
                     else "Decrease Short"
                else "Increase Short")).
Proof.
  intros Hcoin Hpx Hsz Hsp delta newPos.
  destruct (fillTrade_processed addr f now px sz sp Hcoin Hpx Hsz Hsp)
    as (payload & mkEvent & Hfill & Hev).
  exists payload, mkEvent. split; [done|]. intros dbId.
  destruct (Hev dbId) as (_ & _ & Hact & Hpay).
  assert (Hdelta : fillDelta (if f_isBuy f then Buy else Sell) sz = delta)
    by (subst delta; by destruct (f_isBuy f)).
  rewrite Hdelta in Hact, Hpay. fold newPos in Hact, Hpay.
  rewrite Hact, Hpay.
  pose proof (actionLabel_flat delta newPos) as Hflat.
  pose proof (actionLabel_long sp delta newPos) as Hlong.
  pose proof (actionLabel_short sp delta newPos) as Hshort.
  split_and!.
  - done.
  - by intros ->.
  - intros Hsp' Hup. by rewrite Hlong, bool_decide_eq_true_2.
  - intros Hsp' Hdown. by rewrite Hlong, bool_decide_eq_false_2.
  - intros Hsp' Hdown. by rewrite Hshort, bool_decide_eq_true_2.
  - intros Hsp' Hup. by rewrite Hshort, bool_decide_eq_false_2.
  - intros Hpos.
    assert (Hside : if f_isBuy f then (0 < delta)%Qc else (delta < 0)%Qc).
    { subst delta. destruct (f_isBuy f); [done|]. by apply Qcopp_neg. }
    split_and!; [done| |].
    + intros Hsp'. rewrite Hlong by done. destruct (f_isBuy f).
      * by rewrite bool_decide_eq_true_2.
      * by rewrite bool_decide_eq_false_2 by by apply Qclt_asym.
    + intros Hsp'. rewrite Hshort by done. destruct (f_isBuy f).
      * by rewrite bool_decide_eq_false_2 by by apply Qclt_asym.
      * by rewrite bool_decide_eq_true_2.
Qed.

Lemma fill_action_label_witness :
  (isBtc (f_coin sampleFill) = true
   ∧ f_px sampleFill = Some (Qc_of_Z 50000)
   ∧ f_sz sampleFill = Some (Qc_of_Z 5)
   ∧ f_startPosition sampleFill = Some (Qc_of_Z 5))
  ∧ ∃ payload mkEvent,
      fillTrade "0xabc" sampleFill 0 = Some (payload, mkEvent)
      ∧ t_action (mkEvent None) = Some "Close Long".
Proof.
  split; [exact sampleFill_guards|].
  destruct sampleFill_guards as (H1 & H2 & H3 & H4).
  destruct (fill_action_label "0xabc" sampleFill 0 _ _ _ H1 H2 H3 H4)
    as (payload & mkEvent & Hfill & Hev).
  exists payload, mkEvent. split; [exact Hfill|].
  destruct (Hev None) as (Hact & _ & _ & Hsell & _).
  rewrite Hact. f_equal. rewrite Hsell.
  - reflexivity.
  - vm_compute. reflexivity.
  - vm_compute. discriminate.
Defined.

(** The two fill scenarios of the specification: a buy from flat opens a
    long; selling a whole long closes it. *)
Example scenario_open_long :
  let opening :=
    {| f_coin := "btc"; f_px := Some (Qc_of_Z 50000);
       f_sz := Some (Qc_of_Z 2); f_isBuy := true;
       f_startPosition := Some (Qc_of_Z 0); f_hash := None; f_fee := None;
       f_feeToken := None; f_closedPnl := None; f_time := None |} in
  (λ r, (t_action (r.2 None), t_effect (r.2 None), t_direction (r.2 None)))
    <$> fillTrade "0xabc" opening 1704067200000
  = Some (Some "Open Long", EffOpen, Long).
Proof. vm_compute. reflexivity. Qed.

Example scenario_close_long :
  (λ r, (t_action (r.2 None), t_effect (r.2 None), t_at (r.2 None)))
    <$> fillTrade "0xabc" sampleFill 1704067299000
  = Some (Some "Close Long", EffClose, 1704067200000).
Proof. vm_compute. reflexivity. Qed.

End FillFacts.

(** ** Position snapshots: the live path and the priming path *)

Section SnapshotFacts.
Import Realtime.

Lemma changed_false prev snapshot :
  snap_size snapshot = snap_size prev →
  snap_entryPriceUsd snapshot = snap_entryPriceUsd prev →
  snap_liquidationPriceUsd snapshot = snap_liquidationPriceUsd prev →
  snap_leverage snapshot = snap_leverage prev →
  changed (Some prev) snapshot = false.
Proof.
  intros H1 H2 H3 H4. unfold changed. rewrite H1, H2, H3, H4.
  by rewrite !bool_decide_eq_false_2 by (intros Hne; by apply Hne).
Qed.

(** C5. When the snapshot parsed from a clearinghouse notification has
    the same size, entry price, liquidation price and leverage as the one
    stored for the address, the handler leaves the tracker as it was:
    nothing is pushed to the queue, no persistence call is made, and the
    stored snapshot keeps its timestamp. *)
Theorem clearinghouse_noop
    (addr : string) (positions : list RawPosition) (now : Z) (mark : option Qc)
    (s : Tracker) (stored : PositionSnapshot) (updatedAt : Z) :
  snapshots s !! addr = Some (stored, updatedAt) →
  snap_size (parseSnapshot positions) = snap_size stored →
  snap_entryPriceUsd (parseSnapshot positions) = snap_entryPriceUsd stored →
  snap_liquidationPriceUsd (parseSnapshot positions)
  = snap_liquidationPriceUsd stored →
  snap_leverage (parseSnapshot positions) = snap_leverage stored →
  let s' := onClearinghouse addr positions now mark s in
  s' = s
  ∧ q s' = q s
  ∧ writes s' = writes s
  ∧ snapshots s' !! addr = Some (stored, updatedAt).
Proof.
  intros Hstored H1 H2 H3 H4 s'.
  assert (Hs : s' = s).
  { subst s'. unfold onClearinghouse. rewrite Hstored. cbn [fmap option_fmap option_map fst].
    by rewrite changed_false. }
  by rewrite Hs.
Qed.

Lemma clearinghouse_noop_witness :
  snapshots sampleTracker !! "0xabc"
  = Some (parseSnapshot samplePositions, 1704067200000)
  ∧ onClearinghouse "0xabc" samplePositions 1704067200999 None sampleTracker
    = sampleTracker.
Proof.
  assert (Hstored : snapshots sampleTracker !! "0xabc"
                    = Some (parseSnapshot samplePositions, 1704067200000))
    by (vm_compute; reflexivity).
  split; [exact Hstored|].
  exact (proj1 (clearinghouse_noop "0xabc" samplePositions 1704067200999 None
                  sampleTracker _ _ Hstored eq_refl eq_refl eq_refl eq_refl)).
Defined.

Lemma recordSnapshot_fields addr snapshot now mark s :
  let pushed :=
    EventQueue.push (positionBody addr snapshot (pnlOf snapshot mark) now) (q s) in
  recordSnapshot addr snapshot now mark s
  = {| snapshots := <[addr := (snapshot, now)]> (snapshots s);
       q := pushed.2;
       primeInflight := primeInflight s;
       lastPrimeAt := lastPrimeAt s;
       writes := writes s
         ++ [InsertEvent pushed.1;
             UpsertCurrentPosition
               {| row_address := addr; row_snapshot := snapshot;
                  row_pnlUsd := pnlOf snapshot mark; row_updatedAt := now |}];
       pulls := pulls s;
       tasks := tasks s |}.
Proof. done. Qed.



End SnapshotFacts.

(** ** Priming: one pull per address at a time *)

Section PrimeFacts.
Import Realtime.

(** The pulls issued for [addr] so far. *)
Local Abbreviation pullsFor addr s := (filter (λ a, a = addr) (pulls s)).

Lemma recordSnapshot_prime addr snapshot now mark s :
  primeInflight (recordSnapshot addr snapshot now mark s) = primeInflight s
  ∧ pulls (recordSnapshot addr snapshot now mark s) = pulls s.
Proof. by rewrite recordSnapshot_fields. Qed.

Lemma fillStep_prime addr f now dbId s :
  primeInflight (fillStep addr f now dbId s).2 = primeInflight s
  ∧ pulls (fillStep addr f now dbId s).2 = pulls s.
Proof.
  unfold fillStep. destruct (fillTrade addr f now) as [[payload mkEvent]|]; done.
Qed.

Lemma fillLoop_prime addr fills s :
  primeInflight (fillLoop addr fills s).2 = primeInflight s
  ∧ pulls (fillLoop addr fills s).2 = pulls s.
Proof.
  revert s. induction fills as [|[[f now] dbId] rest IH]; intros s; [done|].
  cbn [fillLoop].
  destruct (fillStep addr f now dbId s) as [t1 s1] eqn:Hstep.
  destruct (fillLoop addr rest s1) as [t2 s2] eqn:Hloop. cbn [snd].
  pose proof (fillStep_prime addr f now dbId s) as [H1 H2].
  pose proof (IH s1) as [H3 H4].
  rewrite Hstep in H1, H2. rewrite Hloop in H3, H4. cbn [snd] in *.
  split; congruence.
Qed.

(** A call for an address whose priming is in flight hands back that
    task and changes nothing. *)
Lemma primeFromHttp_inflight addr opts now s task :
  primeInflight s !! addr = Some task →
  primeFromHttp addr opts now s = (Settles task, s).
Proof. intros Hin. unfold primeFromHttp. by rewrite Hin. Qed.

(** A call that starts a task issues one pull and records the task. *)
Lemma primeFromHttp_starts addr opts now s task :
  primeInflight s !! addr = None →
  (primeFromHttp addr opts now s).1 = Settles task →
  primeInflight (primeFromHttp addr opts now s).2 !! addr = Some task
  ∧ pulls (primeFromHttp addr opts now s).2 = pulls s ++ [addr].
Proof.
  intros Hnone. unfold primeFromHttp. rewrite Hnone.
  destruct (_ && _); [done|]. cbn [fst snd]. intros [= <-].
  cbn [primeInflight pulls performPrime_start tasks].
  by rewrite lookup_insert_eq.
Qed.

(** A call for another address leaves the task and the pulls of [addr]
    alone. *)
Lemma primeFromHttp_other addr addr' opts now s task :
  primeInflight s !! addr = Some task →
  primeInflight (primeFromHttp addr' opts now s).2 !! addr = Some task
  ∧ pullsFor addr (primeFromHttp addr' opts now s).2 = pullsFor addr s.
Proof.
  intros Hin. destruct (decide (addr' = addr)) as [->|Hne].
  { by rewrite (primeFromHttp_inflight _ _ _ _ _ Hin). }
  unfold primeFromHttp. destruct (primeInflight s !! addr'); [done|].
  destruct (_ && _); [done|].
  cbn [snd primeInflight pulls performPrime_start].
  rewrite lookup_insert_ne by done. split; [done|].
  rewrite filter_app, filter_cons_False, filter_nil, app_nil_r by done. done.
Qed.

Lemma act_keeps_inflight addr a s task :
  keepsInflight addr a →
  primeInflight s !! addr = Some task →
  primeInflight (act a s) !! addr = Some task
  ∧ pullsFor addr (act a s) = pullsFor addr s.
Proof.
  intros Hkeep Hin. destruct a as [a' ps now mark|a' fills now|a' opts now|
                                  a' resp now mark nowF]; cbn [act].
  - unfold onClearinghouse. destruct (changed _ _); [|done].
    destruct (recordSnapshot_prime a' (parseSnapshot ps) now mark s) as [-> ->].
    done.
  - unfold onUserEvents.
    pose proof (fillLoop_prime a' fills s) as [H1 H2].
    destruct (fillLoop a' fills s) as [touched s1]. cbn [snd] in *.
    assert (Hin1 : primeInflight s1 !! addr = Some task) by by rewrite H1.
    destruct touched.
    + destruct (primeFromHttp_other addr a' (Some {| force := Some false;
                  minIntervalMs := Some 2000 |}) now s1 task Hin1) as [-> ->].
      by rewrite H2.
    + by rewrite H2.
  - destruct (primeFromHttp_other addr a' opts now s task Hin) as [-> ->]. done.
  - cbn [keepsInflight] in Hkeep. unfold primeSettle, primeFinally.
    cbn [primeInflight pulls]. rewrite lookup_delete_ne by done.
    destruct resp as [ps|]; cbn [performPrime_resume]; [|done].
    destruct (recordSnapshot_prime a' (parseSnapshot ps) now mark s) as [-> ->].
    done.
Qed.

Lemma actAll_keeps_inflight addr l s task :
  Forall (keepsInflight addr) l →
  primeInflight s !! addr = Some task →
  primeInflight (actAll l s) !! addr = Some task
  ∧ pullsFor addr (actAll l s) = pullsFor addr s.
Proof.
  intros Hl. revert s. induction Hl as [|a l Ha _ IH]; intros s Hin; [done|].
  unfold actAll. cbn [foldl]. fold (actAll l (act a s)).
  destruct (act_keeps_inflight addr a s task Ha Hin) as [Hin' Hp].
  destruct (IH _ Hin') as [? ->]. done.
Qed.

(** C7. Once a call of [primeFromHttp] has started the priming task of
    an address, and until that task ends, every later call for the same
    address returns a promise waiting for that very task and starts no
    pull: whatever else the tracker handles in between, one pull in all
    is issued for the address. *)
Theorem prime_coalesces
    (addr : string) (opts1 opts2 : option PrimeOpts) (now1 now2 : Z)
    (between : list Action) (s : Tracker) (task : nat) :
  primeInflight s !! addr = None →
  (primeFromHttp addr opts1 now1 s).1 = Settles task →
  Forall (keepsInflight addr) between →
  let s1 := (primeFromHttp addr opts1 now1 s).2 in
  let s2 := actAll between s1 in
  primeFromHttp addr opts2 now2 s2 = (Settles task, s2)
  ∧ (primeFromHttp addr opts2 now2 s2).1 = (primeFromHttp addr opts1 now1 s).1
  ∧ pullsFor addr (primeFromHttp addr opts2 now2 s2).2
    = pullsFor addr s ++ [addr]
  ∧ primeInflight s2 !! addr = Some task.
Proof.
  intros Hnone Hfirst Hbetween s1 s2.
  destruct (primeFromHttp_starts addr opts1 now1 s task Hnone Hfirst)
    as [Hin1 Hpulls1]. fold s1 in Hin1, Hpulls1.
  destruct (actAll_keeps_inflight addr between s1 task Hbetween Hin1)
    as [Hin2 Hpulls2]. fold s2 in Hin2, Hpulls2.
  rewrite (primeFromHttp_inflight addr opts2 now2 s2 task Hin2).
  split_and!; [done|by rewrite Hfirst| |done].
  cbn [snd]. rewrite Hpulls2, Hpulls1, filter_app.
  by rewrite (filter_cons_True _ addr), filter_nil.
Qed.

Lemma prime_coalesces_witness :
  let first := primeFromHttp "0xabc" None 1704067200500 sampleTracker in
  let s2 := actAll sampleBetween first.2 in
  (primeInflight sampleTracker !! "0xabc" = None
   ∧ first.1 = Settles 0%nat
   ∧ Forall (keepsInflight "0xabc") sampleBetween)
  ∧ primeFromHttp "0xabc"
      (Some {| force := Some false; minIntervalMs := Some 2000 |})
      1704067205000 s2
    = (Settles 0%nat, s2)
  ∧ pulls s2 = ["0xabc"; "0xdef"].
Proof.
  intros first s2.
  assert (Hnone : primeInflight sampleTracker !! "0xabc" = None)
    by (vm_compute; reflexivity).
  assert (Hfirst : first.1 = Settles 0%nat) by (vm_compute; reflexivity).
  assert (Hbetween : Forall (keepsInflight "0xabc") sampleBetween)
    by (repeat constructor).
  split; [by split_and!|]. split; [|vm_compute; reflexivity].
  exact (proj1 (prime_coalesces "0xabc" None
                  (Some {| force := Some false; minIntervalMs := Some 2000 |})
                  1704067200500 1704067205000 sampleBetween sampleTracker 0%nat
                  Hnone Hfirst Hbetween)).
Defined.

End PrimeFacts.

(** ** The repository's test cases, run on the model *)

Section RepositoryTests.
Import EventQueue Pagination.

Example test_push_assigns_seq :
  seq (push (sampleTrade "0xabc") (EventQueue.constructor (Some 10))).1 = 1.
Proof. reflexivity. Qed.

Example test_listSince_after_seq :
  seq <$> listSince 2 (Some 10)
            (pushAll (sampleTrade <$> ["0x0"; "0x1"; "0x2"; "0x3"; "0x4"])
               (EventQueue.constructor (Some 10))).2
  = [3; 4; 5].
Proof. vm_compute. reflexivity. Qed.

Example test_reset_clears :
  let q := reset (push (sampleTrade "0x0") (EventQueue.constructor (Some 10))).2 in
  latestSeq q = 0 ∧ listSince 0 (Some 10) q = [].
Proof. split; reflexivity. Qed.

Example test_listSince_beyond_latest :
  listSince 5 (Some 10)
    (push (sampleTrade "0x0") (EventQueue.constructor (Some 2))).2 = [].
Proof. vm_compute. reflexivity. Qed.

Example test_merge_adds_in_descending_order :
  tr_id <$> mergeTrades sampleClock sampleExisting
              [sampleRow 6 "2024-01-01T00:00:06.000Z" "c" "Buy";
               sampleRow 5 "2024-01-01T00:00:05.000Z" "c" "Sell";
               sampleRow 4 "2024-01-01T00:00:04.000Z" "a" "Buy"]
  = [Some 6; Some 5; Some 4; Some 3; Some 2; Some 1].
Proof. vm_compute. reflexivity. Qed.

Example test_merge_dedupes_same_id :
  tr_id <$> mergeTrades sampleClock sampleExisting
              [sampleRow 2 "2024-01-01T00:00:02.000Z" "a" "Sell";
               sampleRow 7 "2024-01-01T00:00:07.000Z" "d" "Buy"]
  = [Some 7; Some 3; Some 2; Some 1].
Proof. vm_compute. reflexivity. Qed.

Example test_merge_uses_tx_when_ids_differ :
  let row := sampleRow 0 "2024-01-01T00:00:02.000Z" "a" "Sell" in
  tr_id <$> mergeTrades sampleClock
              [withTx (Some "0xabc") None (withId (Some 123) row)]
              [withTx (Some "0xabc") None (withId (Some 999) row)]
  = [Some 123].
Proof. vm_compute. reflexivity. Qed.

Example test_merge_hash_fallback :
  let row := sampleRow 0 "2024-02-01T00:00:02.000Z" "0xabc" "Sell" in
  tr_id <$> mergeTrades sampleClock
              [withId (Some 42) row]
              [withTx None (Some "0xhash") (withId (Some 99) row);
               withTx None (Some "0xhash") (withId (Some 100) row)]
  = [Some 99; Some 42].
Proof. vm_compute. reflexivity. Qed.

Example test_merge_composite_fallback :
  let row := withId None (sampleRow 0 "2024-03-01T00:00:01.000Z" "0x1" "Buy") in
  length (mergeTrades sampleClock [row] [row]) = 1%nat.
Proof. vm_compute. reflexivity. Qed.

Example test_merge_empty_incoming :
  mergeTrades sampleClock sampleExisting [] = sampleExisting.
Proof. reflexivity. Qed.

End RepositoryTests.

(** ** More on the event queue: what is retained and what a reader gets *)

Section EventQueueReaders.
Import EventQueue.

Lemma push_length e q :
  0 ≤ capacity q →
  Z.of_nat (length (buffer (push e q).2))
  = Z.min (Z.of_nat (length (buffer q)) + 1) (capacity q).
Proof.
  intros Hc. rewrite push_buffer, keepLast_length, length_app by done.
  simpl. lia.
Qed.

Lemma reachable_length q :
  reachable q →
  Z.of_nat (length (buffer q)) = Z.min (latestSeq q) (capacity q)
  ∧ 0 ≤ latestSeq q.
Proof.
  unfold latestSeq. induction 1 as [cap|e q Hq [IHlen IHpos]|q Hq _].
  - simpl. lia.
  - pose proof (inv_cap _ (reachable_inv _ Hq)).
    rewrite push_length, push_nextSeq, push_capacity by lia. lia.
  - pose proof (inv_cap _ (reachable_inv _ Hq)). simpl. lia.
Qed.

(** Whatever pushes and resets came before, the buffer holds the last
    [min latestSeq capacity] numbers handed out since the last reset, in
    order, and it is empty exactly when nothing was pushed since then. *)
Theorem retention_across_resets (q : EventQueue.t) :
  reachable q →
  let len := Z.of_nat (length (buffer q)) in
  len = Z.min (latestSeq q) (capacity q)
  ∧ seq <$> buffer q = seqZ (latestSeq q - len + 1) len
  ∧ 0 ≤ latestSeq q
  ∧ (buffer q = [] ↔ latestSeq q = 0).
Proof.
  intros Hq len. destruct (reachable_length q Hq) as [Hlen Hpos].
  pose proof (reachable_inv q Hq) as Hinv.
  split_and!; [done| |done|].
  - rewrite (inv_seqs _ Hinv). unfold latestSeq. fold len. f_equal. lia.
  - pose proof (inv_cap _ Hinv). split.
    + intros Hnil. subst len. rewrite Hnil in Hlen. simpl in Hlen. lia.
    + intros Hzero. apply nil_length_inv. lia.
Qed.

Lemma retention_across_resets_witness :
  reachable (reset sampleQueue)
  ∧ buffer (reset sampleQueue) = []
  ∧ latestSeq (reset sampleQueue) = 0.
Proof.
  assert (Hq : reachable (reset sampleQueue))
    by apply reach_reset, sampleQueue_reachable.
  split; [exact Hq|]. split; [reflexivity|].
  destruct (retention_across_resets _ Hq) as (_ & _ & _ & Hempty).
  apply Hempty. reflexivity.
Defined.

Lemma fmap_filter_seq s (l : list ChangeEvent) :
  seq <$> filter (λ e, s < seq e) l = filter (λ x, s < x) (seq <$> l).
Proof.
  induction l as [|x l IH]; [done|].
  rewrite fmap_cons, !filter_cons. case_decide; [|done].
  by rewrite fmap_cons, IH.
Qed.

Lemma filter_seqZ_above s m n :
  filter (λ x, s < x) (seqZ m n)
  = seqZ (Z.max (s + 1) m) (m + n - Z.max (s + 1) m).
Proof.
  destruct (decide (s + 1 ≤ m)) as [Hlow|Hlow].
  - rewrite filter_all by (apply Forall_seqZ; lia). f_equal; lia.
  - destruct (decide (m + n ≤ s + 1)) as [Hhigh|Hhigh].
    + rewrite filter_none by (apply Forall_seqZ; lia).
      by rewrite seqZ_nil by lia.
    + replace n with ((s + 1 - m) + (m + n - (s + 1))) at 1 by lia.
      rewrite seqZ_app, filter_app by lia.
      rewrite filter_none by (apply Forall_seqZ; lia).
      rewrite filter_all by (apply Forall_seqZ; lia).
      simpl. f_equal; lia.
Qed.

Lemma take_seqZ (k : nat) m n :
  take k (seqZ m n) = seqZ m (Z.min (Z.of_nat k) n).
Proof.
  apply list_eq; intros i. rewrite lookup_take. case_decide.
  - destruct (decide (Z.of_nat i < n)).
    + by rewrite !lookup_seqZ_lt by lia.
    + by rewrite !lookup_seqZ_ge by lia.
  - by rewrite lookup_seqZ_ge by lia.
Qed.

Lemma listSince_seqs (q : EventQueue.t) (s : Z) (limit : option Z) :
  reachable q →
  seq <$> listSince s limit q
  = seqZ (Z.max (s + 1) (latestSeq q - Z.of_nat (length (buffer q)) + 1))
      (Z.min (pageSize (default 200 limit))
         (latestSeq q
          - Z.max (s + 1) (latestSeq q - Z.of_nat (length (buffer q)) + 1)
          + 1)).
Proof.
  intros Hq. pose proof (reachable_inv q Hq) as Hinv.
  rewrite listSince_filter, fmap_take, fmap_filter_seq by done.
  rewrite (inv_seqs _ Hinv), filter_seqZ_above, take_seqZ.
  pose proof (pageSize_bounds (default 200 limit)).
  unfold latestSeq in *. f_equal; lia.
Qed.

(** The page [listSince] returns, by its numbers: consecutive ones, from
    [s + 1] or, when that one is no longer retained, from the oldest
    retained number; as many as the page size allows up to the newest. *)
Theorem listSince_numbers (q : EventQueue.t) (s : Z) (limit : option Z) :
  reachable q →
  let oldest := latestSeq q - Z.of_nat (length (buffer q)) + 1 in
  let first := Z.max (s + 1) oldest in
  seq <$> listSince s limit q
  = seqZ first (Z.min (pageSize (default 200 limit)) (latestSeq q - first + 1)).
Proof. intros Hq oldest first. by apply listSince_seqs. Qed.

Lemma listSince_numbers_witness :
  reachable sampleQueue
  ∧ seq <$> listSince (-7) (Some 2) sampleQueue = [1; 2].
Proof.
  split; [exact sampleQueue_reachable|].
  rewrite (listSince_numbers sampleQueue (-7) (Some 2) sampleQueue_reachable).
  reflexivity.
Defined.

End EventQueueReaders.

Section EventQueueCursors.
Import EventQueue.

Lemma sorted_filter_after_last (l : list ChangeEvent) (n : nat) e :
  StronglySorted Z.lt (seq <$> l) →
  list.last (take n l) = Some e →
  filter (λ x, seq e < seq x) l = drop n l.
Proof.
  intros Hs Hlast. rewrite <- (take_drop n l) at 1.
  rewrite <- (take_drop n l), fmap_app in Hs.
  apply StronglySorted_app in Hs as (Hcross & Hs1 & _).
  apply last_Some in Hlast as [pre Hpre].
  assert (He : seq e ∈ seq <$> take n l).
  { rewrite Hpre. apply list_elem_of_fmap_2, elem_of_app. right. by constructor. }
  rewrite filter_app, filter_none, filter_all; [done| |].
  - apply Forall_forall. intros x Hx.
    apply (Hcross (seq e) (seq x) He). by apply list_elem_of_fmap_2.
  - apply Forall_forall. intros x Hx. rewrite Hpre in Hx, Hs1.
    apply elem_of_app in Hx as [Hx|Hx].
    + rewrite fmap_app in Hs1.
      apply StronglySorted_app in Hs1 as (Hcross1 & _ & _).
      assert (seq x < seq e); [|lia].
      apply Hcross1; [by apply list_elem_of_fmap_2|]. simpl. by constructor.
    + apply list_elem_of_singleton in Hx as ->. lia.
Qed.

(** Reading on from the last number of a page gives the next page: two
    reads in a row return, without gap or repeat, the first
    [page1 + page2] retained events above [s]. *)
Theorem listSince_pages_compose
    (q : EventQueue.t) (s : Z) (limit1 limit2 : option Z) (e : ChangeEvent) :
  reachable q →
  list.last (listSince s limit1 q) = Some e →
  listSince s limit1 q ++ listSince (seq e) limit2 q
  = take (Z.to_nat (pageSize (default 200 limit1))
          + Z.to_nat (pageSize (default 200 limit2)))
         (filter (λ x, s < seq x) (buffer q)).
Proof.
  intros Hq Hlast. pose proof (reachable_inv q Hq) as Hinv.
  rewrite !listSince_filter in * by done.
  set (above := filter (λ x, s < seq x) (buffer q)) in *.
  assert (Hsorted : StronglySorted Z.lt (seq <$> above)).
  { subst above. rewrite fmap_filter_seq, (inv_seqs _ Hinv), filter_seqZ_above.
    apply seqZ_StronglySorted. }
  assert (Hse : s < seq e).
  { apply last_Some in Hlast as [pre Hpre].
    assert (Hin : e ∈ above).
    { rewrite <- (take_drop (Z.to_nat (pageSize (default 200 limit1))) above).
      apply elem_of_app. left. rewrite Hpre. apply elem_of_app. right.
      by constructor. }
    subst above. by apply list_elem_of_filter in Hin as [? _]. }
  assert (Hnext : filter (λ x, seq e < seq x) (buffer q)
                  = filter (λ x, seq e < seq x) above).
  { subst above. rewrite list_filter_filter.
    apply filter_ext_in, Forall_forall. intros x _. lia. }
  rewrite Hnext, (sorted_filter_after_last above _ e Hsorted Hlast).
  apply take_take_drop.
Qed.

Lemma listSince_pages_compose_witness :
  reachable sampleQueue
  ∧ seq <$> listSince 0 (Some 2) sampleQueue
            ++ listSince 2 (Some 2) sampleQueue
    = [1; 2; 3].
Proof.
  split; [exact sampleQueue_reachable|].
  assert (Hlast : list.last (listSince 0 (Some 2) sampleQueue)
                  = Some {| seq := 2; body := sampleTrade "0x1" |})
    by reflexivity.
  change (listSince 2 (Some 2) sampleQueue)
    with (listSince (seq {| seq := 2; body := sampleTrade "0x1" |})
            (Some 2) sampleQueue).
  rewrite (listSince_pages_compose sampleQueue 0 (Some 2) (Some 2) _
             sampleQueue_reachable Hlast).
  reflexivity.
Defined.

Lemma listSince_pushed
    (q : EventQueue.t) (evts : list EventBody) (limit : option Z) :
  reachable q →
  Z.of_nat (length evts) ≤ capacity q →
  listSince (latestSeq q) limit (pushAll evts q).2
  = take (Z.to_nat (pageSize (default 200 limit))) (pushAll evts q).1.
Proof.
  intros Hq Hfit. pose proof (reachable_inv q Hq) as Hinv.
  pose proof (inv_cap _ Hinv). pose proof (inv_len _ Hinv).
  rewrite listSince_filter by by apply pushAll_inv.
  f_equal. rewrite pushAll_buffer by lia. unfold keepLast.
  rewrite length_app, pushAll_length, drop_app_le by lia.
  rewrite filter_app, filter_none, filter_all; [done| |].
  - apply (Forall_fmap seq (λ x, latestSeq q < x)).
    rewrite pushAll_seqs. apply Forall_seqZ. unfold latestSeq. lia.
  - apply Forall_drop, (Forall_fmap seq (λ x, ¬ latestSeq q < x)).
    rewrite (inv_seqs _ Hinv). apply Forall_seqZ. unfold latestSeq. lia.
Qed.

(** A reader that had read everything gets, after further pushes, those
    pushes in order (the first page of them), provided no more were pushed
    than the queue can hold. *)
Theorem listSince_after_pushes
    (q : EventQueue.t) (evts : list EventBody) (limit : option Z) :
  reachable q →
  Z.of_nat (length evts) ≤ capacity q →
  listSince (latestSeq q) limit (pushAll evts q).2
  = take (Z.to_nat (pageSize (default 200 limit))) (pushAll evts q).1.
Proof. apply listSince_pushed. Qed.

Lemma listSince_after_pushes_witness :
  reachable sampleQueue
  ∧ 2 ≤ capacity sampleQueue
  ∧ seq <$> listSince 3 None
              (pushAll [sampleTrade "0x3"; sampleTrade "0x4"] sampleQueue).2
    = [4; 5].
Proof.
  split; [exact sampleQueue_reachable|]. split; [vm_compute; discriminate|].
  change 3 with (latestSeq sampleQueue) at 1.
  rewrite (listSince_after_pushes sampleQueue
             [sampleTrade "0x3"; sampleTrade "0x4"] None sampleQueue_reachable)
    by (vm_compute; discriminate).
  reflexivity.
Defined.

(** [reset] does not tell readers: after it, a reader still standing at
    number [s] gets nothing until more than [s] events have been pushed
    again, so the first [s] events after a reset never reach it. *)
Theorem listSince_after_reset
    (q : EventQueue.t) (evts : list EventBody) (s : Z) (limit : option Z) :
  reachable q →
  Z.of_nat (length evts) ≤ s →
  listSince s limit (pushAll evts (reset q)).2 = [].
Proof.
  intros Hq Hs.
  assert (Hq' : reachable (pushAll evts (reset q)).2)
    by by apply pushAll_reachable, reach_reset.
  apply (fmap_nil_inv seq). rewrite listSince_seqs by done.
  apply seqZ_nil. unfold latestSeq. rewrite pushAll_nextSeq. simpl.
  pose proof (pageSize_bounds (default 200 limit)). lia.
Qed.

Lemma listSince_after_reset_witness :
  reachable sampleQueue
  ∧ 2 ≤ 3
  ∧ listSince 3 None
      (pushAll [sampleTrade "0x3"; sampleTrade "0x4"] (reset sampleQueue)).2
    = [].
Proof.
  split; [exact sampleQueue_reachable|]. split; [lia|].
  apply (listSince_after_reset sampleQueue
           [sampleTrade "0x3"; sampleTrade "0x4"] 3 None sampleQueue_reachable).
  simpl. lia.
Defined.

End EventQueueCursors.

(** ** The load-more rate limiter *)

Section RateLimitFacts.
Import RateLimit.

Lemma accepted_cons state m now rest :
  accepted state m (now :: rest)
  = if bool_decide (now - lastAt state < m) then accepted state m rest
    else now :: accepted {| lastAt := now |} m rest.
Proof. unfold accepted at 1, canLoadMore. by case_bool_decide. Qed.

Lemma accepted_after (x m : Z) clock state :
  x ≤ lastAt state → Forall (λ now, x ≤ now) clock →
  Forall (λ now, x + m ≤ now) (accepted state m clock).
Proof.
  intros Hx Hclock. revert state Hx.
  induction Hclock as [|now rest Hnow _ IH]; intros state Hx; [constructor|].
  rewrite accepted_cons. case_bool_decide; [by apply IH|].
  constructor; [lia|]. by apply IH.
Qed.

(** With a clock that does not run backwards, any two calls that are let
    through are at least [minIntervalMs] apart, and every call that is
    let through is that far from the time the state started with. *)
Theorem canLoadMore_spacing (state : RateState) (minIntervalMs : Z) (clock : list Z) :
  StronglySorted Z.le clock →
  StronglySorted (λ a b, a + minIntervalMs ≤ b)
    (accepted state minIntervalMs clock)
  ∧ Forall (λ now, lastAt state + minIntervalMs ≤ now)
      (take 1 (accepted state minIntervalMs clock)).
Proof.
  intros Hclock. split.
  - revert state. induction Hclock as [|now rest Hrest IH Hnow]; intros state;
      [constructor|].
    rewrite accepted_cons. case_bool_decide; [apply IH|].
    constructor; [apply IH|]. by apply accepted_after.
  - revert state. induction Hclock as [|now rest Hrest IH Hnow]; intros state;
      [constructor|].
    rewrite accepted_cons. case_bool_decide; [apply IH|].
    simpl. repeat constructor. lia.
Qed.

Lemma canLoadMore_spacing_witness :
  StronglySorted Z.le [1000; 1100; 1199; 1200; 1500]
  ∧ accepted {| lastAt := 0 |} 200 [1000; 1100; 1199; 1200; 1500]
    = [1000; 1200; 1500]
  ∧ StronglySorted (λ a b, a + 200 ≤ b)
      (accepted {| lastAt := 0 |} 200 [1000; 1100; 1199; 1200; 1500]).
Proof.
  assert (Hclock : StronglySorted Z.le [1000; 1100; 1199; 1200; 1500])
    by (repeat constructor; lia).
  split; [exact Hclock|]. split; [reflexivity|].
  exact (proj1 (canLoadMore_spacing {| lastAt := 0 |} 200 _ Hclock)).
Defined.

End RateLimitFacts.

(** ** More on merging trade pages *)

Section MergeMore.
Import Pagination.

Variable getTime : string → option Z.

Local Abbreviation sortTrades := (sortTrades getTime).
Local Abbreviation insertSorted := (insertSorted getTime).
Local Abbreviation mergeTrades := (mergeTrades getTime).
Local Abbreviation descTimeId := (descTimeId getTime).
Local Abbreviation wellFormed := (wellFormed getTime).
Local Abbreviation comesAfter := (comesAfter getTime).

(** When every incoming row repeats a key already present, the merge
    returns the existing list as it is, in the order it had. *)
Theorem mergeTrades_nothing_new (existing incoming : list TradeRow) :
  Forall (λ t, tradeKey t ∈ tradeKey <$> existing) incoming →
  mergeTrades existing incoming = existing.
Proof.
  intros Hdup. unfold Pagination.mergeTrades.
  rewrite additionsFrom_seen; [done|].
  eapply Forall_impl; [exact Hdup|]. intros t Ht.
  by apply elem_of_list_to_set.
Qed.


Lemma additionsFrom_sublist seen incoming :
  additionsFrom seen incoming `sublist_of` incoming.
Proof.
  revert seen. induction incoming as [|x rest IH]; intros seen; simpl.
  - constructor.
  - case_decide; [by apply sublist_cons|by apply sublist_skip].
Qed.

(** The merge never loses or changes a stored row and only adds incoming
    rows with new keys: the result is the stored rows plus a sub-list of
    the incoming ones, one per new key; its length is bounded by both;
    and its rows with a stored key are exactly the stored rows. *)
Theorem mergeTrades_keeps_existing (existing incoming : list TradeRow) :
  let merged := mergeTrades existing incoming in
  let seen : gset TradeKey := list_to_set (tradeKey <$> existing) in
  let additions := additionsFrom seen incoming in
  merged ≡ₚ existing ++ additions
  ∧ additions `sublist_of` incoming
  ∧ NoDup (tradeKey <$> additions)
  ∧ Forall (λ t, tradeKey t ∉ tradeKey <$> existing) additions
  ∧ (length existing ≤ length merged ≤ length existing + length incoming)%nat
  ∧ filter (λ t, tradeKey t ∈ seen) merged ≡ₚ existing.
Proof.
  intros merged seen additions.
  pose proof (mergeTrades_Permutation getTime existing incoming) as Hperm.
  fold merged seen additions in Hperm.
  assert (Hfresh : Forall (λ t, tradeKey t ∉ seen) additions).
  { apply Forall_forall. by intros t [_ Ht]%additionsFrom_fresh. }
  split_and!.
  - done.
  - apply additionsFrom_sublist.
  - apply additionsFrom_NoDup.
  - eapply Forall_impl; [exact Hfresh|]. intros t Ht Hin. apply Ht.
    by apply elem_of_list_to_set.
  - rewrite Hperm, length_app. lia.
  - rewrite Hperm, length_app.
    pose proof (sublist_length _ _ (additionsFrom_sublist seen incoming)) as Hsub.
    fold additions in Hsub. lia.
  - rewrite Hperm, filter_app, (filter_none _ additions) by done.
    rewrite app_nil_r, filter_all; [done|].
    apply Forall_forall. intros t Ht.
    by apply elem_of_list_to_set, list_elem_of_fmap_2.
Qed.

(** *** Merging page after page *)




Lemma comesAfter_trans x y z :
  wellFormed x → wellFormed y → wellFormed z →
  comesAfter x y = true → comesAfter y z = true → comesAfter x z = true.
Proof.
  intros Hx Hy Hz Hxy Hyz.
  pose proof (comesAfter_desc getTime x y Hx Hy) as H1.
  pose proof (comesAfter_desc getTime y z Hy Hz) as H2.
  pose proof (comesAfter_desc getTime x z Hx Hz) as H3.
  rewrite Hxy in H1. rewrite Hyz in H2.
  destruct (comesAfter x z); [done|]. exfalso.
  apply (proj2 H2). eapply descTimeId_trans; [|exact H3]. tauto.
Qed.







End MergeMore.

Section MergeMoreRuns.
Import Pagination.

Lemma mergeTrades_nothing_new_witness :
  Forall (λ t, tradeKey t ∈ tradeKey <$> reverse sampleExisting)
    [sampleRow 2 "2024-01-01T00:00:02.000Z" "a" "Sell"]
  ∧ Pagination.mergeTrades sampleClock (reverse sampleExisting)
      [sampleRow 2 "2024-01-01T00:00:02.000Z" "a" "Sell"]
    = reverse sampleExisting.
Proof.
  assert (Hdup : Forall (λ t, tradeKey t ∈ tradeKey <$> reverse sampleExisting)
                   [sampleRow 2 "2024-01-01T00:00:02.000Z" "a" "Sell"]).
  { constructor; [|constructor].
    apply (bool_decide_unpack _). vm_compute. exact I. }
  split; [exact Hdup|].
  exact (mergeTrades_nothing_new sampleClock _ _ Hdup).
Defined.



End MergeMoreRuns.

Section MergeByHash.
Import Pagination.

Variable getTime : string → option Z.

Lemma tradeKey_txIdentity t :
  tradeKey t
  = match txIdentity t with
    | Some h => KeyTx (toLowerCase h)
    | None =>
        match tr_id t with
        | Some n => KeyId n
        | None => KeyComposite (tr_time t) (tr_address t) (tr_size t) (tr_price t)
        end
    end.
Proof.
  unfold tradeKey, txIdentity.
  by destruct (truthy (tr_tx t)), (truthy (tr_hash t)).
Qed.

(** A row that carries a transaction hash, in [tx] or in [hash], is
    identified by that hash without regard to letter case and to which of
    the two fields holds it: it duplicates exactly the rows with the same
    hash, never a row without one, whatever the ids are; merged into a
    list holding such a row, it is dropped. *)
Theorem tradeKey_by_hash (a b : TradeRow) (x : string) :
  txIdentity a = Some x →
  (∀ y, txIdentity b = Some y →
        (tradeKey a = tradeKey b ↔ toLowerCase x = toLowerCase y))
  ∧ (txIdentity b = None → tradeKey a ≠ tradeKey b)
  ∧ (∀ existing y,
       a ∈ existing → txIdentity b = Some y →
       toLowerCase x = toLowerCase y →
       mergeTrades getTime existing [b] = existing).
Proof.
  intros Ha. rewrite (tradeKey_txIdentity a), Ha. split_and!.
  - intros y Hb. rewrite (tradeKey_txIdentity b), Hb. split; congruence.
  - intros Hb. rewrite (tradeKey_txIdentity b), Hb. by destruct (tr_id b).
  - intros existing y Hin Hb Hxy. unfold Pagination.mergeTrades.
    rewrite additionsFrom_seen; [done|]. repeat constructor.
    apply elem_of_list_to_set, list_elem_of_fmap.
    exists a. split; [|done].
    by rewrite (tradeKey_txIdentity a), (tradeKey_txIdentity b), Ha, Hb, Hxy.
Qed.

End MergeByHash.

Section MergeByHashRuns.
Import Pagination.

Lemma tradeKey_by_hash_witness :
  let stored := withTx (Some "0xABC") None
                  (sampleRow 123 "2024-01-01T00:00:02.000Z" "a" "Sell") in
  let arriving := withTx None (Some "0xabc")
                    (sampleRow 999 "2024-01-01T00:00:02.000Z" "a" "Sell") in
  txIdentity stored = Some "0xABC"
  ∧ tradeKey stored = tradeKey arriving
  ∧ mergeTrades sampleClock [stored] [arriving] = [stored].
Proof.
  intros stored arriving.
  assert (Ha : txIdentity stored = Some "0xABC") by reflexivity.
  destruct (tradeKey_by_hash sampleClock stored arriving "0xABC" Ha)
    as (Hsame & _ & Hmerge).
  split; [exact Ha|]. split.
  - apply (Hsame "0xabc"); reflexivity.
  - apply (Hmerge [stored] "0xabc"); [by constructor|reflexivity..].
Defined.

End MergeByHashRuns.

(** ** The server: polling, pushing to sockets, heartbeats *)

Section ServerFacts.
Import EventQueue Server.

Lemma last_seqZ m n : 0 < n → list.last (seqZ m n) = Some (m + n - 1).
Proof.
  intros Hn. rewrite last_lookup, length_seqZ.
  rewrite lookup_seqZ_lt by lia. f_equal. lia.
Qed.

(** What the last event of a page tells: it is above [s], not above the
    newest number, and nothing in the page is above it. *)
Lemma listSince_last q s limit e :
  reachable q →
  list.last (listSince s limit q) = Some e →
  s < seq e ≤ latestSeq q
  ∧ Forall (λ x, s < seq x ≤ seq e) (listSince s limit q).
Proof.
  intros Hq Hlast. pose proof (listSince_seqs q s limit Hq) as Hseqs.
  pose proof (pageSize_bounds (default 200 limit)) as Hp.
  set (first := Z.max (s + 1) (latestSeq q - Z.of_nat (length (buffer q)) + 1)) in *.
  set (count := Z.min (pageSize (default 200 limit)) (latestSeq q - first + 1)) in *.
  assert (Hcount : 0 < count).
  { destruct (decide (0 < count)) as [|Hn]; [done|].
    rewrite seqZ_nil in Hseqs by lia. apply fmap_nil_inv in Hseqs.
    by rewrite Hseqs in Hlast. }
  assert (He : seq e = first + count - 1).
  { apply (f_equal (fmap seq)) in Hlast.
    rewrite <- fmap_last, Hseqs, last_seqZ in Hlast by done.
    simpl in Hlast. congruence. }
  split; [lia|].
  apply (Forall_fmap seq (λ x, s < x ≤ seq e)). rewrite Hseqs.
  apply Forall_seqZ. lia.
Qed.

Lemma listSince_nonempty q s limit :
  reachable q →
  listSince s limit q ≠ [] ↔ s < latestSeq q ∧ 0 < latestSeq q.
Proof.
  intros Hq. pose proof (listSince_seqs q s limit Hq) as Hseqs.
  pose proof (pageSize_bounds (default 200 limit)) as Hp.
  destruct (reachable_length q Hq) as [Hlen Hpos].
  pose proof (inv_cap _ (reachable_inv q Hq)) as Hcap.
  split.
  - intros Hne. destruct (decide (s < latestSeq q ∧ 0 < latestSeq q)); [done|].
    exfalso. apply Hne, (fmap_nil_inv seq). rewrite Hseqs. apply seqZ_nil. lia.
  - intros [Hs Hl] Hnil. rewrite Hnil in Hseqs. symmetry in Hseqs.
    apply (f_equal length) in Hseqs. rewrite length_seqZ in Hseqs.
    simpl in Hseqs. lia.
Qed.

(** [GET /api/changes].  A non-empty answer moves the cursor forward, to
    the number of its last event, and holds only events between the old
    and the new cursor; an empty answer sets the cursor to the newest
    number, also when that is behind the cursor sent; events newer than a
    cursor at or above zero are never withheld, except that a [limit]
    that is not a number gives an empty answer, and so moves the cursor
    past everything retained. *)
Theorem apiChanges_cursor (since limit : QueryNumber) (q : EventQueue.t) :
  reachable q →
  let from := match since with QNum n => n | _ => 0 end in
  let events := (apiChanges since limit q).1 in
  let next := (apiChanges since limit q).2 in
  (events ≠ [] →
   from < next ≤ latestSeq q ∧ Forall (λ e, from < seq e ≤ next) events)
  ∧ (events = [] → next = latestSeq q)
  ∧ (limit ≠ QNaN → 0 ≤ from → from < latestSeq q → events ≠ [])
  ∧ (limit = QNaN → events = [] ∧ next = latestSeq q)
  ∧ (length events ≤ 1000)%nat.
Proof.
  intros Hq from events next. subst events next. unfold apiChanges.
  fold from. cbn [fst snd].
  destruct limit as [| |n]; cbn [list.last].
  - split_and!; try done.
    + intros Hne. destruct (list.last _) as [e|] eqn:Hlast.
      * by apply listSince_last in Hlast.
      * by apply last_None in Hlast.
    + by intros ->.
    + intros _ H0 Hlt. apply listSince_nonempty; [done|lia].
    + rewrite listSince_filter by by apply reachable_inv.
      rewrite length_take.
      match goal with
      | |- context [pageSize ?l] => pose proof (pageSize_bounds l)
      end. lia.
  - split_and!; try done. simpl. lia.
  - split_and!; try done.
    + intros Hne. destruct (list.last _) as [e|] eqn:Hlast.
      * by apply listSince_last in Hlast.
      * by apply last_None in Hlast.
    + by intros ->.
    + intros _ H0 Hlt. apply listSince_nonempty; [done|lia].
    + rewrite listSince_filter by by apply reachable_inv.
      rewrite length_take.
      match goal with
      | |- context [pageSize ?l] => pose proof (pageSize_bounds l)
      end. lia.
Qed.

Lemma apiChanges_cursor_witness :
  reachable sampleQueue
  ∧ seq <$> (apiChanges (QNum 1) QAbsent sampleQueue).1 = [2; 3]
  ∧ (apiChanges (QNum 1) QAbsent sampleQueue).2 = 3
  ∧ (apiChanges (QNum 9) QAbsent sampleQueue).2 = latestSeq sampleQueue.
Proof.
  split; [exact sampleQueue_reachable|].
  split; [reflexivity|]. split; [reflexivity|].
  destruct (apiChanges_cursor (QNum 9) QAbsent sampleQueue sampleQueue_reachable)
    as (_ & Hempty & _).
  apply Hempty. reflexivity.
Defined.

End ServerFacts.

Section HubFacts.
Import EventQueue Server.

Lemma listSince_sorted q s limit :
  reachable q → StronglySorted Z.lt (seq <$> listSince s limit q).
Proof. intros Hq. rewrite listSince_seqs by done. apply seqZ_StronglySorted. Qed.

(** Sending a client the page above [s] and moving its cursor to the end
    of the page keeps it in order, when nothing sent before is above [s]. *)
Lemma deliver_ok (mk : list ChangeEvent → Frame) q s limit c e :
  (∀ events, frameEvents (mk events) = events) →
  (∀ events, events ≠ [] → frameOk (mk events)) →
  reachable q → clientOk c →
  Forall (λ x, seq x ≤ s) (delivered c) →
  list.last (listSince s limit q) = Some e →
  clientOk (send (mk (listSince s limit q)) (setLastSeq (seq e) c)).
Proof.
  intros Hmk Hmkok Hq (Hsorted & Hbound & Hframes) Hbelow Hlast.
  destruct (listSince_last q s limit e Hq Hlast) as [Hse Hpage].
  unfold send, setLastSeq. cbn [isOpen lastSeq alive outbox].
  unfold clientOk, delivered in *.
  destruct (isOpen c) eqn:Hopen; cbn [lastSeq outbox].
  - rewrite bind_app. cbn [mbind list_bind]. rewrite Hmk, app_nil_r.
    split_and!.
    + rewrite fmap_app. apply StronglySorted_app_2.
      * intros x1 x2 (a & -> & Ha)%list_elem_of_fmap
          (b & -> & Hb)%list_elem_of_fmap.
        eapply Forall_forall in Hbelow; [|exact Ha].
        eapply Forall_forall in Hpage; [|exact Hb]. simpl in *. lia.
      * done.
      * by apply listSince_sorted.
    + apply Forall_app. split.
      * eapply Forall_impl; [exact Hbelow|]. intros x Hx. simpl in *. lia.
      * eapply Forall_impl; [exact Hpage|]. intros x Hx. simpl in *. lia.
    + apply Forall_app. split; [done|]. repeat constructor.
      apply Hmkok. intros Hnil. by rewrite Hnil in Hlast.
  - split_and!; [done| |done].
    eapply Forall_impl; [exact Hbelow|]. intros x Hx. simpl in *. lia.
Qed.

Lemma broadcastTo_ok q c : reachable q → clientOk c → clientOk (broadcastTo q c).
Proof.
  intros Hq Hc. unfold broadcastTo. destruct (isOpen c); [|done].
  destruct (list.last _) as [e|] eqn:Hlast; [|done].
  apply (deliver_ok Events); try done. by destruct Hc as (_ & ? & _).
Qed.

Lemma catchUp_ok q since c :
  reachable q → clientOk c →
  Forall (λ e, seq e ≤ since) (delivered c) →
  clientOk (catchUp since q c).
Proof.
  intros Hq Hc Hbelow. unfold catchUp.
  destruct (list.last _) as [e|] eqn:Hlast.
  - change (setLastSeq (seq e) (setLastSeq since c))
      with (setLastSeq (seq e) c).
    by apply (deliver_ok Batch).
  - destruct Hc as (Hs & _ & Hf). by split_and!.
Qed.

Lemma setAlive_ok b c : clientOk c → clientOk (setAlive b c).
Proof. done. Qed.

Lemma setOpen_ok b c : clientOk c → clientOk (setOpen b c).
Proof. done. Qed.

Lemma alter_ok (f : WSClient → WSClient) id (cs : gmap nat WSClient) :
  (∀ c, cs !! id = Some c → clientOk c → clientOk (f c)) →
  map_Forall (λ _ c, clientOk c) cs →
  map_Forall (λ _ c, clientOk c) (alter f id cs).
Proof.
  intros Hf Hcs k c. rewrite lookup_alter. case_decide as Hk.
  - subst k. destruct (cs !! id) as [c0|] eqn:Hc0; [|done].
    intros [= <-]. apply Hf; [done|]. by eapply Hcs.
  - apply Hcs.
Qed.

Lemma hubStep_ok ev h :
  hubOk h → forwardRun [ev] h → hubOk (hubStep ev h).
Proof.
  intros [Hq Hcs] [Hfwd _]. destruct ev as [evt| | |id since|id|id|id| |];
    cbn [hubStep].
  - split; [by apply reach_push|done].
  - split; [by apply reach_reset|done].
  - split; [done|]. cbn [onConnection clients].
    apply map_Forall_insert_2; [|done].
    unfold clientOk, delivered, send. simpl. repeat constructor.
  - destruct since as [n|]; [|done]. split; [done|].
    cbn [onMessage withClients clients]. apply alter_ok; [|done].
    intros c Hc Hok. apply catchUp_ok; [done..|]. by apply Hfwd.
  - split; [done|]. cbn [onPong withClients clients].
    apply alter_ok; [|done]. intros c _. apply setAlive_ok.
  - split; [done|]. cbn [onClose withClients clients].
    by apply map_Forall_delete.
  - split; [done|]. cbn [withClients clients].
    apply alter_ok; [|done]. intros c _. apply setOpen_ok.
  - split; [done|]. cbn [runBroadcast withClients clients].
    intros k c. rewrite lookup_fmap.
    destruct (clients h !! k) as [c0|] eqn:Hc0; [|done].
    intros [= <-]. apply broadcastTo_ok; [done|]. by eapply Hcs.
  - split; [done|]. cbn [heartbeat withClients clients].
    intros k c. rewrite lookup_fmap.
    destruct (filter _ (clients h) !! k) as [c0|] eqn:Hc0; [|done].
    intros [= <-]. apply map_lookup_filter_Some in Hc0 as [Hc0 _].
    apply setAlive_ok. by eapply Hcs.
Qed.

Lemma hubRun_ok run h : hubOk h → forwardRun run h → hubOk (hubRun run h).
Proof.
  revert h. induction run as [|ev run IH]; intros h Hok Hfwd; [done|].
  destruct Hfwd as [Hev Hrest]. unfold hubRun. cbn [foldl].
  apply IH; [|done]. by apply hubStep_ok.
Qed.

(** Whatever is pushed, reset, connected, closed or ticked, the events a
    socket is sent carry strictly increasing numbers, none above the
    client's cursor, and no frame of events is empty, as long as clients
    only ask to catch up from at or above what they were sent. *)
Theorem hub_sends_in_order
    (queue : EventQueue.t) (run : list HubEvent) (id : nat) (c : WSClient) :
  reachable queue →
  forwardRun run (hubStart queue) →
  clients (hubRun run (hubStart queue)) !! id = Some c →
  StronglySorted Z.lt (seq <$> delivered c)
  ∧ Forall (λ e, seq e ≤ lastSeq c) (delivered c)
  ∧ Forall frameOk (outbox c).
Proof.
  intros Hq Hfwd Hc.
  assert (Hstart : hubOk (hubStart queue)).
  { split; [done|]. cbn [hubStart clients]. apply map_Forall_empty. }
  destruct (hubRun_ok run _ Hstart Hfwd) as [_ Hcs].
  by apply (Hcs id c).
Qed.

Lemma sampleHubRun_forward : forwardRun sampleHubRun (hubStart sampleQueue).
Proof.
  cbn [sampleHubRun forwardRun]. split_and!; try done.
  intros c Hc. vm_compute in Hc. injection Hc as <-. constructor.
Qed.

Lemma hub_sends_in_order_witness :
  reachable sampleQueue
  ∧ forwardRun sampleHubRun (hubStart sampleQueue)
  ∧ ∃ c, clients (hubRun sampleHubRun (hubStart sampleQueue)) !! 0%nat = Some c
         ∧ seq <$> delivered c = [2; 3; 4]
         ∧ StronglySorted Z.lt (seq <$> delivered c).
Proof.
  split; [exact sampleQueue_reachable|].
  split; [exact sampleHubRun_forward|].
  destruct (clients (hubRun sampleHubRun (hubStart sampleQueue)) !! 0%nat)
    as [c|] eqn:Hc; [|vm_compute in Hc; discriminate].
  exists c. split; [done|]. split.
  - vm_compute in Hc. injection Hc as <-. reflexivity.
  - exact (proj1 (hub_sends_in_order sampleQueue sampleHubRun 0%nat c
                    sampleQueue_reachable sampleHubRun_forward Hc)).
Defined.

(** *** Heartbeats *)

(** The client is gone or has not answered the last ping. *)
Local Abbreviation silent id h :=
  (match clients h !! id with Some c => alive c = false | None => True end).

Lemma hubStep_connections ev h : (connections h ≤ connections (hubStep ev h))%nat.
Proof.
  destruct ev as [evt| | |id since|id|id|id| |]; cbn; try lia.
  destruct since; cbn; lia.
Qed.

Lemma broadcastTo_alive q c : alive (broadcastTo q c) = alive c.
Proof.
  unfold broadcastTo, send, setLastSeq. destruct (isOpen c) eqn:Ho; [|done].
  by destruct (list.last _).
Qed.

Lemma catchUp_alive n q c : alive (catchUp n q c) = alive c.
Proof.
  unfold catchUp, send, setLastSeq. destruct (list.last _); [|done].
  cbn [isOpen]. by destruct (isOpen c).
Qed.

Lemma hubStep_silent ev h id :
  ev ≠ Pong id → (id < connections h)%nat →
  silent id h → silent id (hubStep ev h).
Proof.
  intros Hev Hid Hsilent.
  destruct ev as [evt| | |id' since|id'|id'|id'| |]; cbn [hubStep].
  - done.
  - done.
  - cbn [onConnection clients]. rewrite lookup_insert_ne by lia. done.
  - destruct since as [n|]; [|done]. cbn [onMessage withClients clients].
    rewrite lookup_alter. case_decide as Hk; [|done]. subst id'.
    destruct (clients h !! id) as [c|]; [|done]. simpl.
    by rewrite catchUp_alive.
  - cbn [onPong withClients clients]. rewrite lookup_alter_ne; [done|].
    congruence.
  - cbn [onClose withClients clients].
    destruct (decide (id' = id)) as [->|Hne].
    + by rewrite lookup_delete_eq.
    + by rewrite lookup_delete_ne.
  - cbn [withClients clients]. rewrite lookup_alter. case_decide; [|done].
    subst id'. by destruct (clients h !! id).
  - cbn [runBroadcast withClients clients]. rewrite lookup_fmap.
    destruct (clients h !! id) as [c|]; [|done]. simpl.
    by rewrite broadcastTo_alive.
  - cbn [heartbeat withClients clients]. rewrite lookup_fmap.
    by destruct (filter _ (clients h) !! id).
Qed.

Lemma hubRun_silent run h id :
  Forall (λ ev, ev ≠ Pong id) run → (id < connections h)%nat →
  silent id h → silent id (hubRun run h).
Proof.
  intros Hrun. revert h. induction Hrun as [|ev run Hev _ IH]; intros h Hid Hs;
    [done|].
  unfold hubRun. cbn [foldl]. apply IH.
  - pose proof (hubStep_connections ev h). lia.
  - by apply hubStep_silent.
Qed.

Lemma heartbeat_lookup h id :
  clients (heartbeat h) !! id
  = match clients h !! id with
    | Some c => if alive c then Some (setAlive false c) else None
    | None => None
    end.
Proof.
  cbn [heartbeat withClients clients]. rewrite lookup_fmap.
  destruct (clients h !! id) as [c|] eqn:Hc.
  - destruct (alive c) eqn:Ha.
    + by rewrite (map_lookup_filter_Some_2 _ _ id c).
    + rewrite (proj2 (map_lookup_filter_None _ _ id)); [done|].
      right. intros c' Hc'. simpl. congruence.
  - rewrite (proj2 (map_lookup_filter_None _ _ id)); [done|]. by left.
Qed.

(** A heartbeat keeps every client that answered since the one before
    (marking it to be checked again), and the next heartbeat removes a
    client from which no pong came in between, whatever else happened. *)
Theorem heartbeat_drops_silent
    (h : Hub) (between : list HubEvent) (id : nat) :
  (id < connections h)%nat →
  Forall (λ ev, ev ≠ Pong id) between →
  clients (heartbeat (hubRun between (heartbeat h))) !! id = None
  ∧ (∀ c, clients h !! id = Some c → alive c = true →
          clients (heartbeat h) !! id = Some (setAlive false c)).
Proof.
  intros Hid Hbetween. split.
  - assert (Hfirst : silent id (heartbeat h)).
    { rewrite heartbeat_lookup. destruct (clients h !! id) as [c|]; [|done].
      by destruct (alive c). }
    pose proof (hubRun_silent between (heartbeat h) id Hbetween Hid Hfirst)
      as Hstill.
    rewrite heartbeat_lookup.
    destruct (clients (hubRun between (heartbeat h)) !! id) as [c|]; [|done].
    by rewrite Hstill.
  - intros c Hc Ha. by rewrite heartbeat_lookup, Hc, Ha.
Qed.

Lemma heartbeat_drops_silent_witness :
  (0 < connections sampleHub)%nat
  ∧ Forall (λ ev, ev ≠ Pong 0%nat)
      [BroadcastTick; Pushed (sampleTrade "0x3"); Message 0 (Some 0)]
  ∧ is_Some (clients (heartbeat sampleHub) !! 0%nat)
  ∧ clients
      (heartbeat
         (hubRun [BroadcastTick; Pushed (sampleTrade "0x3"); Message 0 (Some 0)]
            (heartbeat sampleHub))) !! 0%nat
    = None.
Proof.
  assert (Hid : (0 < connections sampleHub)%nat) by (vm_compute; lia).
  assert (Hrun : Forall (λ ev, ev ≠ Pong 0%nat)
                   [BroadcastTick; Pushed (sampleTrade "0x3");
                    Message 0 (Some 0)])
    by (repeat constructor; discriminate).
  split; [exact Hid|]. split; [exact Hrun|].
  split; [vm_compute; eauto|].
  exact (proj1 (heartbeat_drops_silent sampleHub _ 0%nat Hid Hrun)).
Defined.

End HubFacts.

Section HubDelivery.
Import EventQueue Server.

Lemma hubRun_pushed evts h :
  hubRun (Pushed <$> evts) h = withChanges (pushAll evts (changes h)).2 h.
Proof.
  revert h. induction evts as [|e evts IH]; intros h; [by destruct h|].
  rewrite fmap_cons.
  change (hubRun (Pushed e :: (Pushed <$> evts)) h)
    with (hubRun (Pushed <$> evts) (hubStep (Pushed e) h)).
  rewrite IH, pushAll_cons. done.
Qed.

(** An open client that had been sent everything gets, at the first
    broadcast after some pushes, one frame holding exactly the pushed
    events in order, and its cursor is at the newest number again;
    provided the pushes fit in one frame (200) and in the queue. *)
Theorem hub_push_then_tick
    (h : Hub) (id : nat) (c : WSClient) (evts : list EventBody) :
  reachable (changes h) →
  clients h !! id = Some c →
  isOpen c = true →
  lastSeq c = latestSeq (changes h) →
  evts ≠ [] →
  (length evts ≤ 200)%nat →
  Z.of_nat (length evts) ≤ capacity (changes h) →
  let h' := runBroadcast (hubRun (Pushed <$> evts) h) in
  clients h' !! id
  = Some {| lastSeq := latestSeq (changes h'); alive := alive c;
            isOpen := true;
            outbox := outbox c ++ [Events (pushAll evts (changes h)).1] |}.
Proof.
  intros Hq Hc Hopen Hcursor Hne Hframe Hfit h'. subst h'.
  rewrite hubRun_pushed. cbn [runBroadcast withClients withChanges clients changes].
  rewrite lookup_fmap, Hc. cbn [fmap option_fmap option_map]. f_equal.
  unfold broadcastTo. rewrite Hopen, Hcursor, listSince_pushed by done.
  change (Z.to_nat (pageSize (default 200 (Some 200)))) with 200%nat.
  rewrite take_ge by (rewrite pushAll_length; lia).
  assert (Hlast : seq <$> list.last (pushAll evts (changes h)).1
                  = Some (latestSeq (pushAll evts (changes h)).2)).
  { rewrite <- fmap_last, pushAll_seqs, last_seqZ.
    - unfold latestSeq. rewrite pushAll_nextSeq. f_equal; lia.
    - destruct evts; [done|]. simpl. lia. }
  destruct (list.last _) as [e|]; [|done].
  injection Hlast as Hlast. unfold send, setLastSeq. cbn [isOpen].
  rewrite Hopen. cbn [lastSeq alive isOpen outbox]. by rewrite Hlast.
Qed.

Lemma hub_push_then_tick_witness :
  let evts := [sampleTrade "0x3"; sampleTrade "0x4"] in
  let h := runBroadcast sampleHub in
  (reachable (changes h)
   ∧ (length evts ≤ 200)%nat
   ∧ Z.of_nat (length evts) ≤ capacity (changes h))
  ∧ ∃ c, clients (runBroadcast (hubRun (Pushed <$> evts) h)) !! 0%nat = Some c
         ∧ (λ f, seq <$> frameEvents f) <$> outbox c
           = [[]; [1; 2; 3]; [4; 5]]
         ∧ lastSeq c = 5.
Proof.
  intros evts h.
  assert (Hq : reachable (changes h)) by exact sampleQueue_reachable.
  assert (Hframe : (length evts ≤ 200)%nat) by (simpl; lia).
  assert (Hfit : Z.of_nat (length evts) ≤ capacity (changes h))
    by (vm_compute; discriminate).
  split; [by split_and!|].
  destruct (clients h !! 0%nat) as [c0|] eqn:Hc0;
    [|vm_compute in Hc0; discriminate].
  assert (Ho : isOpen c0 = true)
    by (vm_compute in Hc0; by injection Hc0 as <-).
  assert (Hs : lastSeq c0 = latestSeq (changes h))
    by (vm_compute in Hc0; by injection Hc0 as <-).
  eexists. split.
  - apply (hub_push_then_tick h 0%nat c0 evts Hq Hc0 Ho Hs); done.
  - vm_compute in Hc0. injection Hc0 as <-. split; reflexivity.
Defined.

End HubDelivery.

(** ** The labels of backfilled fills *)

Section BackfillLabels.
Import Realtime Server.

Lemma Qc_tricho (x : Qc) : ¬ (0 < x)%Qc → x ≠ 0%Qc → (x < 0)%Qc.
Proof.
  intros Hpos Hz. destruct (Qc_dec 0 x) as [[?|?]|?]; [done|done|congruence].
Qed.

(** [deriveActionLabel], used when fills are backfilled, gives a finite
    fill the label of the live handler, with " (Open New)" added to the
    opening labels and " (Close All)" to the closing ones.  With a start
    position that is not a number it still answers, with a short label,
    where the live handler skips the fill. *)
Theorem deriveActionLabel_agrees (sp sz : Qc) (sideB : bool) (szAny : option Qc) :
  let delta := fillDelta (if sideB then Buy else Sell) sz in
  deriveActionLabel (Some sp) (Some sz) sideB
  = backfillWording (actionLabel sp delta (sp + delta))
  ∧ actionLabel sp delta (sp + delta) ≠ ""
  ∧ (deriveActionLabel None szAny sideB = "Increase Short"
     ∨ deriveActionLabel None szAny sideB = "Decrease Short").
Proof.
  intros delta.
  assert (Hdelta : (if sideB then Some sz else jsNeg (Some sz)) = Some delta)
    by (subst delta; by destruct sideB).
  split_and!.
  - unfold deriveActionLabel. rewrite Hdelta.
    unfold actionLabel, jsAdd, jsZero, jsPositive, jsNegative.
    repeat case_bool_decide; try done.
    all: exfalso;
      match goal with
      | H : ¬ (?x < _)%Qc |- _ => apply H; by apply Qc_tricho
      end.
  - unfold actionLabel. repeat case_bool_decide; try done.
    intros _.
    match goal with
    | H : ¬ (?x < _)%Qc |- _ => apply H; by apply Qc_tricho
    end.
  - unfold deriveActionLabel, jsAdd, jsZero, jsPositive.
    destruct (jsNegative _); [by left|by right].
Qed.

End BackfillLabels.

(** ** More on the tracker's handlers *)

Section HandlerFacts.
Import Realtime.

Lemma changed_false_inv prev snapshot :
  changed prev snapshot = false → prev = Some snapshot.
Proof.
  unfold changed. destruct prev as [p|]; [|done].
  intros H. repeat (apply orb_false_elim in H as [H ?]).
  repeat match goal with
         | H : bool_decide _ = false |- _ =>
             apply bool_decide_eq_false in H; apply dec_stable in H
         end.
  destruct p, snapshot; simpl in *. by subst.
Qed.

(** After a position notification is handled, the snapshot stored for the
    address is the one parsed from it, snapshots of other addresses are
    as before, and handling the same notification again, at any time and
    mark price, changes nothing more. *)
Theorem onClearinghouse_settles
    (addr : string) (positions : list RawPosition) (now now' : Z)
    (mark mark' : option Qc) (s : Tracker) :
  let s1 := onClearinghouse addr positions now mark s in
  fst <$> snapshots s1 !! addr = Some (parseSnapshot positions)
  ∧ onClearinghouse addr positions now' mark' s1 = s1
  ∧ (∀ other, other ≠ addr → snapshots s1 !! other = snapshots s !! other).
Proof.
  intros s1.
  assert (Hstored : fst <$> snapshots s1 !! addr = Some (parseSnapshot positions)).
  { subst s1. unfold onClearinghouse.
    destruct (changed _ _) eqn:Hch.
    - rewrite recordSnapshot_fields. cbn [snapshots].
      by rewrite lookup_insert_eq.
    - by apply changed_false_inv in Hch. }
  split_and!; [done| |].
  - unfold onClearinghouse at 1. rewrite Hstored.
    by rewrite changed_false.
  - intros other Hne. subst s1. unfold onClearinghouse.
    destruct (changed _ _); [|done].
    rewrite recordSnapshot_fields. cbn [snapshots].
    by rewrite lookup_insert_ne.
Qed.

Lemma findBtc_app_none before rest :
  Forall (λ ap, isBtc (rp_coin ap) = false) before →
  findBtc (before ++ rest) = findBtc rest.
Proof.
  intros Hbefore. unfold findBtc.
  induction Hbefore as [|ap before Hap _ IH]; [done|].
  cbn [app list_find]. rewrite decide_False by congruence.
  destruct (list_find _ (before ++ rest)) as [[i x]|],
    (list_find _ rest) as [[j y]|]; simpl in *; congruence.
Qed.

(** Only the first BTC entry of a payload counts, whatever the letter
    case of its coin name: entries of other coins before it and all
    entries after it are ignored, a missing or non-finite size reads as
    0, and a payload without a BTC entry reads as a flat position with
    no prices. *)
Theorem parseSnapshot_first_btc
    (before after : list RawPosition) (btc : RawPosition) :
  Forall (λ ap, isBtc (rp_coin ap) = false) before →
  (isBtc (rp_coin btc) = true →
   parseSnapshot (before ++ btc :: after)
   = {| snap_size := default 0%Qc (rp_szi btc);
        snap_entryPriceUsd := rp_entryPx btc;
        snap_liquidationPriceUsd := rp_liquidationPx btc;
        snap_leverage := rp_leverageValue btc |})
  ∧ parseSnapshot before
    = {| snap_size := 0%Qc; snap_entryPriceUsd := None;
         snap_liquidationPriceUsd := None; snap_leverage := None |}
  ∧ sideFromSize (snap_size (parseSnapshot before)) = Flat.
Proof.
  intros Hbefore.
  assert (Hnone : findBtc before = None).
  { rewrite <- (app_nil_r before). by rewrite findBtc_app_none. }
  split_and!.
  - intros Hbtc. unfold parseSnapshot. rewrite findBtc_app_none by done.
    unfold findBtc. cbn [list_find]. by rewrite decide_True.
  - unfold parseSnapshot. by rewrite Hnone.
  - unfold parseSnapshot. by rewrite Hnone.
Qed.

Lemma parseSnapshot_first_btc_witness :
  Forall (λ ap, isBtc (rp_coin ap) = false) (take 1 samplePositions)
  ∧ snap_size (parseSnapshot samplePositions) = Qc_of_Z 2
  ∧ snap_entryPriceUsd (parseSnapshot (take 1 samplePositions)) = None.
Proof.
  assert (Hb : Forall (λ ap, isBtc (rp_coin ap) = false) (take 1 samplePositions))
    by (repeat constructor).
  split; [exact Hb|].
  destruct (parseSnapshot_first_btc (take 1 samplePositions) []
              {| rp_coin := "BTC"; rp_szi := Some (Qc_of_Z 2);
                 rp_entryPx := Some (Qc_of_Z 40000);
                 rp_leverageValue := Some (Qc_of_Z 10);
                 rp_liquidationPx := None |} Hb) as (Hfirst & Hnone & _).
  split.
  - change samplePositions
      with (take 1 samplePositions
            ++ [{| rp_coin := "BTC"; rp_szi := Some (Qc_of_Z 2);
                   rp_entryPx := Some (Qc_of_Z 40000);
                   rp_leverageValue := Some (Qc_of_Z 10);
                   rp_liquidationPx := None |}]).
    by rewrite Hfirst.
  - by rewrite Hnone.
Defined.

Lemma fillTrade_unusable addr f now :
  unusable f → fillTrade addr f now = None.
Proof.
  unfold unusable, fillTrade. intros [->|[Hpx|[Hsz|Hsp]]]; [done|..];
    destruct (isBtc _); cbn [negb]; try done.
  - by rewrite Hpx.
  - rewrite Hsz. by destruct (f_px f).
  - rewrite Hsp. by destruct (f_px f), (f_sz f).
Qed.

Lemma fillLoop_cons addr f now dbId rest s :
  fillLoop addr ((f, now, dbId) :: rest) s
  = ((fillStep addr f now dbId s).1
     || (fillLoop addr rest (fillStep addr f now dbId s).2).1,
     (fillLoop addr rest (fillStep addr f now dbId s).2).2).
Proof.
  cbn [fillLoop]. destruct (fillStep addr f now dbId s) as [t1 s1].
  cbn [fst snd]. by destruct (fillLoop addr rest s1).
Qed.

(** A batch in which no fill is usable (other coins, prices, sizes or
    start positions that are not finite numbers) leaves the tracker as it
    was: no event, no persistence call, and no priming call. *)
Theorem onUserEvents_nothing_usable
    (addr : string) (fills : list (RawFill * Z * option Z)) (nowPrime : Z)
    (s : Tracker) :
  Forall (λ entry, unusable entry.1.1) fills →
  onUserEvents addr fills nowPrime s = s.
Proof.
  intros Hfills. unfold onUserEvents.
  assert (Hloop : fillLoop addr fills s = (false, s)).
  { induction Hfills as [|[[f now] dbId] rest Hf _ IH]; [done|].
    rewrite fillLoop_cons. unfold fillStep.
    rewrite fillTrade_unusable by done. cbn [fst snd]. by rewrite IH. }
  by rewrite Hloop.
Qed.

Lemma onUserEvents_nothing_usable_witness :
  Forall (λ entry, unusable entry.1.1) sampleUnusableFills
  ∧ onUserEvents "0xabc" sampleUnusableFills 1704067200000 sampleTracker
    = sampleTracker.
Proof.
  assert (Hfills : Forall (λ entry, unusable entry.1.1) sampleUnusableFills).
  { constructor; [by left|]. constructor; [|constructor].
    right. right. by left. }
  split; [exact Hfills|].
  exact (onUserEvents_nothing_usable "0xabc" sampleUnusableFills
           1704067200000 sampleTracker Hfills).
Defined.


End HandlerFacts.

(** ** How the label, the effect and the direction of a fill go together *)

Section FillConsistency.
Import Realtime.











End FillConsistency.

Section FillConsistencyRuns.
Import Realtime.


End FillConsistencyRuns.

(** ** More on priming: rate limit, end of a task, pulls and tasks *)

Section PrimeMore.
Import Realtime Tracking.

Lemma primeSettle_prime addr response now mark nowFinally s :
  primeInflight (primeSettle addr response now mark nowFinally s)
  = delete addr (primeInflight s)
  ∧ lastPrimeAt (primeSettle addr response now mark nowFinally s)
    = <[addr := nowFinally]> (lastPrimeAt s)
  ∧ pulls (primeSettle addr response now mark nowFinally s) = pulls s
  ∧ tasks (primeSettle addr response now mark nowFinally s) = tasks s.
Proof.
  unfold primeSettle, primeFinally. cbn [primeInflight lastPrimeAt pulls tasks].
  destruct response as [positions|]; cbn [performPrime_resume]; [|done].
  by rewrite recordSnapshot_fields.
Qed.


(** The rate limit of the call made after a fill batch: a call that is
    not forced, with a positive interval, made sooner than that interval
    after the last priming task of the address ended, starts no pull and
    is resolved at once; made later, it starts one. *)
Theorem prime_rate_limited
    (addr : string) (response : option (list RawPosition)) (now : Z)
    (mark : option Qc) (nowFinally nowCall interval : Z) (s : Tracker) :
  0 < interval →
  let s1 := primeSettle addr response now mark nowFinally s in
  let call :=
    primeFromHttp addr
      (Some {| force := Some false; minIntervalMs := Some interval |})
      nowCall s1 in
  (nowCall - nowFinally < interval → call = (AlreadyResolved, s1))
  ∧ (interval ≤ nowCall - nowFinally →
     call.1 = Settles (tasks s) ∧ pulls call.2 = pulls s ++ [addr]).
Proof.
  intros Hpos s1 call.
  destruct (primeSettle_prime addr response now mark nowFinally s)
    as (Hin & Hlast & Hpulls & Htasks). fold s1 in Hin, Hlast, Hpulls, Htasks.
  assert (Hnone : primeInflight s1 !! addr = None)
    by by rewrite Hin, lookup_delete_eq.
  subst call. unfold primeFromHttp. rewrite Hnone, Hlast, lookup_insert_eq.
  cbn [mbind option_bind default from_option id negb andb force minIntervalMs].
  rewrite (bool_decide_eq_true_2 (0 < interval)) by done. cbn [andb].
  split.
  - intros Hsoon. by rewrite bool_decide_eq_true_2.
  - intros Hlate. rewrite bool_decide_eq_false_2 by lia.
    cbn [fst snd performPrime_start pulls tasks]. by rewrite Hpulls, Htasks.
Qed.

Lemma prime_rate_limited_witness :
  0 < 2000
  ∧ primeFromHttp "0xabc"
      (Some {| force := Some false; minIntervalMs := Some 2000 |})
      1704067201500
      (primeSettle "0xabc" None 1704067200100 None 1704067200200 sampleTracker)
    = (AlreadyResolved,
       primeSettle "0xabc" None 1704067200100 None 1704067200200 sampleTracker).
Proof.
  split; [lia|].
  apply (prime_rate_limited "0xabc" None 1704067200100 None 1704067200200
           1704067201500 2000 sampleTracker); lia.
Defined.

End PrimeMore.

(** ** Pulls, tasks and what is in flight *)

Section PullCounts.
Import Realtime Tracking.

Lemma fillStep_tasks addr f now dbId s :
  tasks (fillStep addr f now dbId s).2 = tasks s.
Proof.
  unfold fillStep. destruct (fillTrade addr f now) as [[payload mkEvent]|]; done.
Qed.

Lemma fillLoop_tasks addr fills s :
  tasks (fillLoop addr fills s).2 = tasks s.
Proof.
  revert s. induction fills as [|[[f now] dbId] rest IH]; intros s; [done|].
  cbn [fillLoop].
  destruct (fillStep addr f now dbId s) as [t1 s1] eqn:Hstep.
  destruct (fillLoop addr rest s1) as [t2 s2] eqn:Hloop. cbn [snd].
  pose proof (fillStep_tasks addr f now dbId s) as H1.
  pose proof (IH s1) as H2.
  rewrite Hstep in H1. rewrite Hloop in H2. cbn [snd] in *. congruence.
Qed.

Lemma primeFromHttp_counts addr addr' opts now s :
  let s' := (primeFromHttp addr' opts now s).2 in
  (pullCount addr s' + inflightCount addr s
   = pullCount addr s + inflightCount addr s')%nat
  ∧ (tasks s = length (pulls s) → tasks s' = length (pulls s')).
Proof.
  unfold primeFromHttp, pullCount, inflightCount.
  destruct (primeInflight s !! addr') as [t|] eqn:Hin'; [done|].
  destruct (_ && _); [done|].
  cbn [snd primeInflight pulls tasks performPrime_start].
  rewrite filter_app, !length_app. split.
  - destruct (decide (addr' = addr)) as [->|Hne].
    + rewrite Hin', lookup_insert_eq, filter_cons_True by done. simpl. lia.
    + rewrite lookup_insert_ne, filter_cons_False by done. simpl. lia.
  - simpl. lia.
Qed.

Lemma act_counts addr a s :
  validRun [a] s →
  (pullCount addr (act a s) + inflightCount addr s
   = pullCount addr s + settledFor addr [a] + inflightCount addr (act a s))%nat
  ∧ (tasks s = length (pulls s) → tasks (act a s) = length (pulls (act a s))).
Proof.
  intros [Hvalid _].
  destruct a as [a' ps now mark|a' fills now|a' opts now|a' resp now mark nowF];
    cbn [act].
  - unfold onClearinghouse, pullCount, inflightCount, settledFor.
    destruct (changed _ _); [|simpl; split; [lia|done]].
    rewrite recordSnapshot_fields. simpl. split; [lia|done].
  - unfold onUserEvents.
    destruct (fillLoop_prime a' fills s) as (Hi & Hp).
    pose proof (fillLoop_tasks a' fills s) as Htasks1.
    destruct (fillLoop a' fills s) as [touched s1]. cbn [snd] in *.
    assert (Hsame : pullCount addr s1 = pullCount addr s
                    ∧ inflightCount addr s1 = inflightCount addr s
                    ∧ length (pulls s1) = length (pulls s)).
    { unfold pullCount, inflightCount. by rewrite Hi, Hp. }
    destruct Hsame as (Hc1 & Hc2 & Hc3).
    destruct touched.
    + destruct (primeFromHttp_counts addr a'
                  (Some {| force := Some false; minIntervalMs := Some 2000 |})
                  now s1) as [Hc Ht].
      unfold settledFor. simpl. split; [lia|]. intros Hs. apply Ht. lia.
    + unfold settledFor. simpl. split; [lia|]. lia.
  - destruct (primeFromHttp_counts addr a' opts now s) as [Hc Ht].
    unfold settledFor. simpl. split; [lia|done].
  - destruct (primeSettle_prime a' resp now mark nowF s)
      as (Hin & _ & Hpulls & Htasks).
    unfold pullCount, inflightCount, settledFor. rewrite Hin, Hpulls, Htasks.
    cbn [filter list_filter endsPrime]. split; [|done].
    destruct (decide (a' = addr)) as [->|Hne].
    + rewrite lookup_delete_eq. destruct Hvalid as [t ->].
      rewrite decide_True by by apply bool_decide_eq_true_2. simpl. lia.
    + rewrite lookup_delete_ne by done.
      rewrite decide_False by (rewrite bool_decide_eq_false_2; done).
      simpl. lia.
Qed.

Lemma settledFor_cons addr a run :
  settledFor addr (a :: run) = (settledFor addr [a] + settledFor addr run)%nat.
Proof.
  unfold settledFor.
  destruct (decide (endsPrime addr a = true)).
  - rewrite !filter_cons_True by done. simpl. lia.
  - rewrite !filter_cons_False by done. simpl. lia.
Qed.

Lemma actAll_counts addr run s :
  validRun run s →
  (pullCount addr (actAll run s) + inflightCount addr s
   = pullCount addr s + settledFor addr run + inflightCount addr (actAll run s))%nat
  ∧ (tasks s = length (pulls s) →
     tasks (actAll run s) = length (pulls (actAll run s))).
Proof.
  revert s. induction run as [|a rest IH]; intros s Hvalid.
  - unfold settledFor. simpl. split; [lia|done].
  - destruct Hvalid as [Ha Hrest].
    destruct (act_counts addr a s) as [Hc Ht]; [by split|].
    destruct (IH (act a s) Hrest) as [Hc' Ht'].
    rewrite settledFor_cons. cbn [actAll foldl]. fold (actAll rest (act a s)).
    split; [lia|]. intros Hs. apply Ht', Ht, Hs.
Qed.

(** From a new tracker, over any run of handlers, subscriptions' events,
    priming calls and ends of priming tasks: the pulls issued for an
    address are as many as its priming tasks that ended, plus one when one
    is in flight — no pull is issued while one is pending, and none is
    lost.  The number of tasks started is the number of pulls. *)
Theorem pulls_match_tasks
    (queue : EventQueue.t) (run : list Action) (addr : string) :
  validRun run (constructor queue) →
  let s := actAll run (constructor queue) in
  pullCount addr s = (settledFor addr run + inflightCount addr s)%nat
  ∧ tasks s = length (pulls s).
Proof.
  intros Hvalid s.
  destruct (actAll_counts addr run (constructor queue) Hvalid) as [Hc Ht].
  fold s in Hc, Ht. split; [|by apply Ht].
  assert (H0 : pullCount addr (constructor queue) = 0%nat
               ∧ inflightCount addr (constructor queue) = 0%nat).
  { unfold pullCount, inflightCount. simpl. by rewrite lookup_empty. }
  destruct H0 as [Hp0 Hi0]. rewrite Hp0, Hi0 in Hc. lia.
Qed.

End PullCounts.

Lemma pulls_match_tasks_witness :
  Tracking.validRun
    [Realtime.Prime "0xabc" None 10; Realtime.Prime "0xabc" None 20;
     Realtime.PrimeSettled "0xabc" None 30 None 40;
     Realtime.Prime "0xabc" None 50]
    (Realtime.constructor (EventQueue.constructor None))
  ∧ pullCount "0xabc"
      (Realtime.actAll
         [Realtime.Prime "0xabc" None 10; Realtime.Prime "0xabc" None 20;
          Realtime.PrimeSettled "0xabc" None 30 None 40;
          Realtime.Prime "0xabc" None 50]
         (Realtime.constructor (EventQueue.constructor None)))
    = 2%nat.
Proof.
  assert (Hvalid : Tracking.validRun
    [Realtime.Prime "0xabc" None 10; Realtime.Prime "0xabc" None 20;
     Realtime.PrimeSettled "0xabc" None 30 None 40;
     Realtime.Prime "0xabc" None 50]
    (Realtime.constructor (EventQueue.constructor None))).
  { cbn [Tracking.validRun]. split_and!; try exact I.
    exists 0%nat. vm_compute. reflexivity. }
  split; [exact Hvalid|].
  destruct (pulls_match_tasks (EventQueue.constructor None) _ "0xabc" Hvalid)
    as [Hcount _].
  rewrite Hcount. vm_compute. reflexivity.
Defined.

(** ** The freshness sweep *)

Section Sweep.
Import Realtime Tracking.

Lemma primeFromHttp_frame addr opts now s :
  snapshots (primeFromHttp addr opts now s).2 = snapshots s
  ∧ q (primeFromHttp addr opts now s).2 = q s
  ∧ writes (primeFromHttp addr opts now s).2 = writes s
  ∧ lastPrimeAt (primeFromHttp addr opts now s).2 = lastPrimeAt s.
Proof.
  unfold primeFromHttp. destruct (primeInflight s !! addr); [done|].
  by destruct (_ && _).
Qed.

Lemma primeFromHttp_forced addr opts now s :
  default true (opts ≫= force) = true →
  inflightCount addr (primeFromHttp addr opts now s).2 = 1%nat.
Proof.
  intros Hforce. unfold primeFromHttp, inflightCount. rewrite Hforce.
  destruct (primeInflight s !! addr) as [t|] eqn:Hin.
  - cbn [snd]. by rewrite Hin.
  - cbn [negb andb snd primeInflight]. by rewrite lookup_insert_eq.
Qed.

Lemma primeFromHttp_inflight_other addr addr' opts now s :
  addr' ≠ addr →
  inflightCount addr (primeFromHttp addr' opts now s).2 = inflightCount addr s.
Proof.
  intros Hne. unfold primeFromHttp, inflightCount.
  destruct (primeInflight s !! addr'); [done|].
  destruct (_ && _); [done|].
  cbn [snd primeInflight]. by rewrite lookup_insert_ne.
Qed.

Lemma primeFromHttp_keeps addr addr' opts now s t :
  primeInflight s !! addr = Some t →
  primeInflight (primeFromHttp addr' opts now s).2 !! addr = Some t.
Proof. intros Hin. by destruct (primeFromHttp_other addr addr' opts now s t Hin). Qed.

Local Abbreviation staleIn maxAgeMs now s :=
  (λ addr, isStale maxAgeMs now (snapshots s !! addr) = true).

Lemma sweep_cons addr rest maxAgeMs now s :
  sweep (addr :: rest) maxAgeMs now s
  = if isStale maxAgeMs now (snapshots s !! addr) then
      let call :=
        primeFromHttp addr
          (Some {| force := Some true; minIntervalMs := None |}) now s in
      let r := sweep rest maxAgeMs now call.2 in
      (call.1 :: r.1, r.2)
    else sweep rest maxAgeMs now s.
Proof.
  cbn [sweep]. destruct (isStale _ _ _); [|done].
  destruct (primeFromHttp _ _ _ _) as [task s1]. cbn [fst snd].
  by destruct (sweep rest maxAgeMs now s1).
Qed.

Lemma sweep_spec addrs maxAgeMs now s :
  let r := sweep addrs maxAgeMs now s in
  snapshots r.2 = snapshots s ∧ q r.2 = q s ∧ writes r.2 = writes s
  ∧ lastPrimeAt r.2 = lastPrimeAt s
  ∧ length r.1 = length (filter (staleIn maxAgeMs now s) addrs)
  ∧ ∀ addr,
      inflightCount addr r.2
      = (if bool_decide (addr ∈ addrs ∧ staleIn maxAgeMs now s addr)
         then 1%nat else inflightCount addr s)
      ∧ (pullCount addr r.2 + inflightCount addr s
         = pullCount addr s + inflightCount addr r.2)%nat
      ∧ (∀ t, primeInflight s !! addr = Some t →
              primeInflight r.2 !! addr = Some t).
Proof.
  revert s. induction addrs as [|a rest IH]; intros s.
  - cbn. do 5 (split; [done|]). intros addr.
    rewrite bool_decide_eq_false_2 by (intros [H _]; by apply elem_of_nil in H).
    by split_and!.
  - cbn zeta. rewrite sweep_cons.
    destruct (isStale maxAgeMs now (snapshots s !! a)) eqn:Hstale.
    + set (call := primeFromHttp a _ now s).
      destruct (primeFromHttp_frame a
                  (Some {| force := Some true; minIntervalMs := None |}) now s)
        as (Hs & Hq & Hw & Hl). fold call in Hs, Hq, Hw, Hl.
      destruct (IH call.2) as (Hs' & Hq' & Hw' & Hl' & Hlen & Hper).
      cbn [fst snd]. rewrite Hs in Hlen.
      split_and!; try congruence.
      * rewrite filter_cons_True by done. simpl. by rewrite Hlen.
      * intros addr. destruct (Hper addr) as (Hin & Hcount & Hkeep).
        rewrite Hs in Hin.
        destruct (primeFromHttp_counts addr a
                    (Some {| force := Some true; minIntervalMs := None |}) now s)
          as [Hc _]. fold call in Hc.
        split_and!.
        -- rewrite Hin. destruct (decide (a = addr)) as [->|Hne].
           ++ rewrite (bool_decide_eq_true_2 (addr ∈ addr :: rest ∧ _))
                by (split; [left|done]).
              unfold call. rewrite primeFromHttp_forced by done.
              by case_bool_decide.
           ++ unfold call. rewrite primeFromHttp_inflight_other by done.
              apply (f_equal (λ b : bool, if b then 1%nat else _)).
              apply bool_decide_ext. rewrite elem_of_cons.
              split; [tauto|]. intros [[->|H] H']; [done|done].
        -- lia.
        -- intros t Ht. apply Hkeep. unfold call. by apply primeFromHttp_keeps.
    + destruct (IH s) as (Hs' & Hq' & Hw' & Hl' & Hlen & Hper).
      split_and!; try done.
      * rewrite filter_cons_False by (by rewrite Hstale). done.
      * intros addr. destruct (Hper addr) as (Hin & Hcount & Hkeep).
        split_and!; try done. rewrite Hin.
        apply (f_equal (λ b : bool, if b then 1%nat else _)).
        apply bool_decide_ext. rewrite elem_of_cons.
        split; [tauto|]. intros [[->|H] H']; [congruence|done].
Qed.

(** The freshness sweep issues one pull for every listed address whose
    snapshot is missing or older than the age limit and that has no
    priming task in flight — one only, however often the address is
    listed — and none for any other address; afterwards every such stale
    address is in flight.  The sweep itself changes no snapshot, pushes no
    event and makes no persistence call. *)
Theorem ensureFreshSnapshots_pulls
    (addresses : list string) (maxAgeMs : option Z) (now : Z) (s : Tracker)
    (addr : string) :
  let addrs := toLowerCase <$> addresses in
  let r := ensureFreshSnapshots addresses maxAgeMs now s in
  let stale := isStale (default 60000 maxAgeMs) now (snapshots s !! addr) in
  snapshots r.2 = snapshots s ∧ q r.2 = q s ∧ writes r.2 = writes s
  ∧ pullCount addr r.2
    = (pullCount addr s
       + if bool_decide (addr ∈ addrs ∧ stale = true
                         ∧ primeInflight s !! addr = None)
         then 1 else 0)%nat
  ∧ inflightCount addr r.2
    = (if bool_decide (addr ∈ addrs ∧ stale = true) then 1%nat
       else inflightCount addr s).
Proof.
  intros addrs r stale. subst r. unfold ensureFreshSnapshots. fold addrs.
  destruct (sweep_spec addrs (default 60000 maxAgeMs) now s)
    as (Hs & Hq & Hw & _ & _ & Hper).
  destruct (Hper addr) as (Hin & Hcount & _). fold stale in Hin.
  split_and!; try done.
  rewrite Hin in Hcount.
  assert (Hfl' : inflightCount addr s
                 = match primeInflight s !! addr with
                   | Some _ => 1%nat | None => 0%nat end) by done.
  destruct (primeInflight s !! addr) as [t|] eqn:Hfl; rewrite Hfl' in Hcount.
  - rewrite bool_decide_eq_false_2 by (intros (_ & _ & ?); done).
    destruct (bool_decide _) in Hcount; lia.
  - destruct (bool_decide (addr ∈ addrs ∧ stale = true)) eqn:Hb.
    + apply bool_decide_eq_true_1 in Hb.
      rewrite bool_decide_eq_true_2 by tauto. lia.
    + apply bool_decide_eq_false_1 in Hb.
      rewrite bool_decide_eq_false_2 by tauto. lia.
Qed.

(** What a priming task leaves for the next sweep: after a successful
    pull the address needs no pull for [maxAgeMs] from the time the
    snapshot was stored; after a failed pull of an address without
    snapshot the next sweep pulls again at once. *)
Theorem sweep_after_prime
    (addr : string) (positions : list RawPosition) (now : Z) (mark : option Qc)
    (nowFinally : Z) (maxAgeMs : option Z) (nowSweep : Z) (s : Tracker) :
  toLowerCase addr = addr →
  nowSweep - now ≤ default 60000 maxAgeMs →
  snapshots s !! addr = None →
  let ok := primeSettle addr (Some positions) now mark nowFinally s in
  let failed := primeSettle addr None now mark nowFinally s in
  ensureFreshSnapshots [addr] maxAgeMs nowSweep ok = ([], ok)
  ∧ (ensureFreshSnapshots [addr] maxAgeMs nowSweep failed).1
    = [Settles (tasks s)]
  ∧ pulls (ensureFreshSnapshots [addr] maxAgeMs nowSweep failed).2
    = pulls s ++ [addr].
Proof.
  intros Hlower Hage Hnone ok failed.
  unfold ensureFreshSnapshots. cbn [fmap list_fmap]. rewrite Hlower.
  rewrite !sweep_cons. split_and!.
  - unfold ok, primeSettle, primeFinally. cbn [snapshots performPrime_resume].
    rewrite recordSnapshot_fields. cbn [snapshots].
    rewrite lookup_insert_eq. cbn [isStale].
    by rewrite bool_decide_eq_false_2 by lia.
  - unfold failed, primeSettle, primeFinally.
    cbn [snapshots performPrime_resume]. rewrite Hnone. cbn [isStale sweep fst snd].
    unfold primeFromHttp. cbn [primeInflight]. by rewrite lookup_delete_eq.
  - unfold failed, primeSettle, primeFinally.
    cbn [snapshots performPrime_resume]. rewrite Hnone. cbn [isStale sweep fst snd].
    unfold primeFromHttp. cbn [primeInflight]. by rewrite lookup_delete_eq.
Qed.

Lemma sweep_after_prime_witness :
  (toLowerCase "0xdef" = "0xdef"
   ∧ 1704067230000 - 1704067200100 ≤ default 60000 None
   ∧ snapshots sampleTracker !! "0xdef" = None)
  ∧ ensureFreshSnapshots ["0xdef"] None 1704067230000
      (primeSettle "0xdef" (Some samplePositions) 1704067200100 None
         1704067200200 sampleTracker)
    = ([], primeSettle "0xdef" (Some samplePositions) 1704067200100 None
             1704067200200 sampleTracker).
Proof.
  assert (H1 : toLowerCase "0xdef" = "0xdef") by reflexivity.
  assert (H2 : 1704067230000 - 1704067200100 ≤ default 60000 None)
    by (simpl; lia).
  assert (H3 : snapshots sampleTracker !! "0xdef" = None)
    by (vm_compute; reflexivity).
  split; [by split_and!|].
  apply (sweep_after_prime "0xdef" samplePositions 1704067200100 None
           1704067200200 None 1704067230000 sampleTracker H1 H2 H3).
Defined.

End Sweep.

(** ** Following the address list *)

Section Refresh.
Import Realtime Tracking.

Local Abbreviation unsubStep addrs :=
  (λ (addr : string) (acc : Subscribed),
     if decide (addr ∈ addrs) then acc else dropAddress addr acc).

Local Abbreviation subStep now :=
  (λ (acc : Subscribed) (addr : string),
     if decide (addr ∈ subs acc) then acc else subscribeAddress addr now acc).

Lemma if_bool_decide_ext {A} (P Q : Prop) `{!Decision P, !Decision Q}
    (x y : A) :
  (P ↔ Q) →
  (if bool_decide P then x else y) = (if bool_decide Q then x else y).
Proof. intros H. by rewrite (bool_decide_ext P Q H). Qed.

Lemma unsub_fold (addrs l : list string) (sb : Subscribed) :
  let r := foldr (unsubStep addrs) sb l in
  (∀ a, a ∈ subs r ↔ a ∈ subs sb ∧ (a ∈ l → a ∈ addrs))
  ∧ (∀ a, snapshots (tracker r) !! a
          = if bool_decide (a ∈ l ∧ a ∉ addrs) then None
            else snapshots (tracker sb) !! a)
  ∧ q (tracker r) = q (tracker sb)
  ∧ primeInflight (tracker r) = primeInflight (tracker sb)
  ∧ lastPrimeAt (tracker r) = lastPrimeAt (tracker sb)
  ∧ writes (tracker r) = writes (tracker sb)
  ∧ pulls (tracker r) = pulls (tracker sb)
  ∧ tasks (tracker r) = tasks (tracker sb).
Proof.
  induction l as [|a0 rest IH].
  - cbn. split; [|split].
    + intros a. split; [intros H; split; [done|]|tauto].
      intros H'. by apply elem_of_nil in H'.
    + intros a.
      by rewrite bool_decide_eq_false_2
        by (intros [H' _]; by apply elem_of_nil in H').
    + done.
  - cbn zeta in *. cbn [foldr].
    destruct IH as (Hsubs & Hsnap & Hq & Hi & Hl & Hw & Hp & Ht).
    destruct (decide (a0 ∈ addrs)) as [Hin|Hout].
    + split; [|split]; [| |done].
      * intros a. rewrite Hsubs, elem_of_cons. split.
        -- intros [H1 H2]. split; [done|]. intros [->|H3]; [done|by apply H2].
        -- intros [H1 H2]. split; [done|]. intros H3. apply H2. by right.
      * intros a. rewrite Hsnap.
        apply if_bool_decide_ext. rewrite elem_of_cons.
        split; [tauto|]. intros [[->|H1] H2]; [done|done].
    + cbn [dropAddress tracker subs snapshots q primeInflight lastPrimeAt
           writes pulls tasks].
      split; [|split]; [| |done].
      * intros a. rewrite elem_of_difference, elem_of_singleton, Hsubs,
          elem_of_cons. split.
        -- intros [[H1 H2] H3]. split; [done|].
           intros [->|H4]; [done|by apply H2].
        -- intros [H1 H2]. split; [split; [done|]|].
           ++ intros H3. apply H2. by right.
           ++ intros ->. apply Hout, H2. by left.
      * intros a. destruct (decide (a = a0)) as [->|Hne].
        -- rewrite lookup_delete_eq.
           by rewrite bool_decide_eq_true_2 by (split; [left|done]).
        -- rewrite lookup_delete_ne by done. rewrite Hsnap.
           apply if_bool_decide_ext. rewrite elem_of_cons.
           split; [tauto|]. intros [[->|H1] H2]; [done|done].
Qed.

Lemma unsub_fold_same (addrs l : list string) (sb : Subscribed) :
  (∀ a, a ∈ l → a ∈ addrs) → foldr (unsubStep addrs) sb l = sb.
Proof.
  induction l as [|a0 rest IH]; intros Hall; [done|].
  cbn [foldr]. rewrite decide_True by (apply Hall; by left).
  apply IH. intros a Ha. apply Hall. by right.
Qed.

Lemma subscribeAddress_spec addr now sb :
  let r := subscribeAddress addr now sb in
  subs r = {[addr]} ∪ subs sb
  ∧ snapshots (tracker r) = snapshots (tracker sb)
  ∧ q (tracker r) = q (tracker sb)
  ∧ writes (tracker r) = writes (tracker sb)
  ∧ (∀ a t, primeInflight (tracker sb) !! a = Some t →
            primeInflight (tracker r) !! a = Some t)
  ∧ (snapshots (tracker sb) !! addr = None →
     inflightCount addr (tracker r) = 1%nat).
Proof.
  unfold subscribeAddress. cbn [subs tracker].
  destruct (decide (is_Some (snapshots (tracker sb) !! addr))) as [Hsome|Hnone].
  - split_and!; try done. intros Hn. rewrite Hn in Hsome. by destruct Hsome.
  - destruct (primeFromHttp_frame addr None now (tracker sb))
      as (Hs & Hq & Hw & _).
    split_and!; try done.
    + intros a t. apply primeFromHttp_keeps.
    + intros _. by apply primeFromHttp_forced.
Qed.

Lemma subscribeNew_spec addrs now sb :
  let r := subscribeNew addrs now sb in
  (∀ a, a ∈ subs r ↔ a ∈ subs sb ∨ a ∈ addrs)
  ∧ snapshots (tracker r) = snapshots (tracker sb)
  ∧ q (tracker r) = q (tracker sb)
  ∧ writes (tracker r) = writes (tracker sb)
  ∧ (∀ a t, primeInflight (tracker sb) !! a = Some t →
            primeInflight (tracker r) !! a = Some t)
  ∧ (∀ a, a ∈ addrs → a ∉ subs sb → snapshots (tracker sb) !! a = None →
          inflightCount a (tracker r) = 1%nat).
Proof.
  revert sb. induction addrs as [|a0 rest IH]; intros sb.
  - cbn. split; [|split_and!; try done].
    + intros a. split; [tauto|]. intros [H|H]; [done|by apply elem_of_nil in H].
    + intros a H. by apply elem_of_nil in H.
  - cbn zeta. unfold subscribeNew. cbn [foldl].
    fold (subscribeNew rest now (subStep now sb a0)).
    destruct (IH (subStep now sb a0)) as (Hsubs & Hsnap & Hq & Hw & Hkeep & Hnew).
    destruct (decide (a0 ∈ subs sb)) as [Hin|Hout].
    + split; [|split_and!; try done].
      * intros a. rewrite Hsubs, elem_of_cons. split; [tauto|].
        intros [H|[->|H]]; tauto.
      * intros a [->|Ha]%elem_of_cons Hnot Hn; [done|]. by apply Hnew.
    + destruct (subscribeAddress_spec a0 now sb)
        as (Hsubs1 & Hsnap1 & Hq1 & Hw1 & Hkeep1 & Hnew1).
      cbn zeta in *.
      split; [|split_and!; try congruence].
      * intros a. rewrite Hsubs, Hsubs1, elem_of_union, elem_of_singleton,
          elem_of_cons. tauto.
      * intros a t Ht. by apply Hkeep, Hkeep1.
      * intros a Ha Hnot Hn.
        destruct (decide (a = a0)) as [->|Hne].
        -- specialize (Hnew1 Hn). unfold inflightCount in Hnew1 |- *.
           destruct (primeInflight (tracker (subscribeAddress a0 now sb)) !! a0)
             as [t|] eqn:Ht; [|done].
           by rewrite (Hkeep a0 t Ht).
        -- apply elem_of_cons in Ha as [->|Ha]; [done|].
           apply Hnew; [done| |by rewrite Hsnap1].
           rewrite Hsubs1, elem_of_union, elem_of_singleton. tauto.
Qed.

Lemma subscribeNew_same addrs now sb :
  (∀ a, a ∈ addrs → a ∈ subs sb) → subscribeNew addrs now sb = sb.
Proof.
  revert sb. induction addrs as [|a0 rest IH]; intros sb Hall; [done|].
  unfold subscribeNew. cbn [foldl].
  rewrite decide_True by (apply Hall; by left).
  apply IH. intros a Ha. apply Hall. by right.
Qed.

Lemma refresh_spec addresses now sb :
  let addrs := toLowerCase <$> addresses in
  let sb' := refresh addresses now sb in
  (∀ a, a ∈ subs sb' ↔ a ∈ addrs)
  ∧ (∀ a, snapshots (tracker sb') !! a
          = if bool_decide (a ∈ subs sb ∧ a ∉ addrs) then None
            else snapshots (tracker sb) !! a)
  ∧ q (tracker sb') = q (tracker sb)
  ∧ writes (tracker sb') = writes (tracker sb)
  ∧ (∀ a t, primeInflight (tracker sb) !! a = Some t →
            primeInflight (tracker sb') !! a = Some t)
  ∧ (∀ a, a ∈ addrs → a ∉ subs sb → snapshots (tracker sb) !! a = None →
          inflightCount a (tracker sb') = 1%nat).
Proof.
  intros addrs sb'. subst sb'. unfold refresh. fold addrs.
  unfold unsubscribeRemoved.
  destruct (unsub_fold addrs (elements (subs sb)) sb)
    as (Hsubs & Hsnap & Hq & Hi & _ & Hw & _ & _).
  set (mid := foldr (unsubStep addrs) sb (elements (subs sb))) in *.
  destruct (subscribeNew_spec addrs now mid)
    as (Hsubs' & Hsnap' & Hq' & Hw' & Hkeep & Hnew).
  cbn zeta in *.
  split_and!; try congruence.
  - intros a. rewrite Hsubs', Hsubs, elem_of_elements. tauto.
  - intros a. rewrite Hsnap', Hsnap. apply if_bool_decide_ext.
    by rewrite elem_of_elements.
  - intros a t Ht. apply Hkeep. by rewrite Hi.
  - intros a Ha Hnot Hn. apply Hnew; [done| |].
    + rewrite Hsubs. tauto.
    + rewrite Hsnap. by rewrite bool_decide_eq_false_2
        by (rewrite elem_of_elements; tauto).
Qed.

(** After a refresh the tracker is subscribed to exactly the addresses of
    the list, in lower case.  The snapshot of every address that was
    subscribed and is no longer listed is dropped, every other snapshot is
    kept; a newly subscribed address without snapshot has a priming task
    in flight.  No event is pushed and no persistence call made, and no
    priming task in flight is cancelled. *)
Theorem refresh_follows_list
    (addresses : list string) (now : Z) (sb : Subscribed) :
  let addrs := toLowerCase <$> addresses in
  let sb' := refresh addresses now sb in
  subs sb' = list_to_set addrs
  ∧ (∀ a, snapshots (tracker sb') !! a
          = if bool_decide (a ∈ subs sb ∧ a ∉ addrs) then None
            else snapshots (tracker sb) !! a)
  ∧ q (tracker sb') = q (tracker sb)
  ∧ writes (tracker sb') = writes (tracker sb)
  ∧ (∀ a t, primeInflight (tracker sb) !! a = Some t →
            primeInflight (tracker sb') !! a = Some t)
  ∧ (∀ a, a ∈ addrs → a ∉ subs sb → snapshots (tracker sb) !! a = None →
          is_Some (primeInflight (tracker sb') !! a)).
Proof.
  intros addrs sb'.
  destruct (refresh_spec addresses now sb)
    as (Hsubs & Hsnap & Hq & Hw & Hkeep & Hnew).
  fold addrs sb' in Hsubs, Hsnap, Hq, Hw, Hkeep, Hnew.
  split_and!; try done.
  - apply set_eq. intros a. by rewrite Hsubs, elem_of_list_to_set.
  - intros a Ha Hnot Hn. specialize (Hnew a Ha Hnot Hn).
    unfold inflightCount in Hnew.
    by destruct (primeInflight (tracker sb') !! a).
Qed.

(** A second refresh with the same address list changes nothing: nothing
    is unsubscribed, nothing subscribed again, no further priming call is
    made. *)
Theorem refresh_idempotent
    (addresses : list string) (now1 now2 : Z) (sb : Subscribed) :
  refresh addresses now2 (refresh addresses now1 sb)
  = refresh addresses now1 sb.
Proof.
  destruct (refresh_spec addresses now1 sb) as (Hsubs & _).
  cbn zeta in Hsubs.
  set (sb1 := refresh addresses now1 sb) in *.
  unfold refresh at 1. unfold unsubscribeRemoved.
  rewrite unsub_fold_same.
  - apply subscribeNew_same. intros a Ha. by apply Hsubs.
  - intros a Ha. apply Hsubs. by apply elem_of_elements.
Qed.

(** Unsubscribing does not stop a priming task: when an address with a
    task in flight leaves the list, the refresh drops its snapshot, and
    the task, when its pull succeeds, stores a snapshot of the address
    again and pushes a position event for it, although the address is no
    longer subscribed. *)
Theorem prime_outlives_unsubscribe
    (addresses : list string) (now : Z) (sb : Subscribed) (addr : string)
    (task : nat) (positions : list RawPosition) (nowPrime : Z)
    (mark : option Qc) (nowFinally : Z) :
  addr ∈ subs sb →
  addr ∉ (toLowerCase <$> addresses) →
  primeInflight (tracker sb) !! addr = Some task →
  let sb' := refresh addresses now sb in
  let s'' :=
    primeSettle addr (Some positions) nowPrime mark nowFinally (tracker sb') in
  let snapshot := parseSnapshot positions in
  (addr ∉ subs sb')
  ∧ snapshots (tracker sb') !! addr = None
  ∧ primeInflight (tracker sb') !! addr = Some task
  ∧ snapshots s'' !! addr = Some (snapshot, nowPrime)
  ∧ q s'' = (EventQueue.push
               (positionBody addr snapshot (pnlOf snapshot mark) nowPrime)
               (q (tracker sb))).2.
Proof.
  intros Hsub Hgone Hfl sb' s'' snapshot.
  destruct (refresh_spec addresses now sb)
    as (Hsubs & Hsnap & Hq & _ & Hkeep & _).
  fold sb' in Hsubs, Hsnap, Hq, Hkeep. cbn zeta in *.
  split_and!.
  - by rewrite Hsubs.
  - by rewrite Hsnap, bool_decide_eq_true_2.
  - by apply Hkeep.
  - subst s''. unfold primeSettle, primeFinally.
    cbn [snapshots performPrime_resume]. rewrite recordSnapshot_fields.
    cbn [snapshots]. by rewrite lookup_insert_eq.
  - subst s''. unfold primeSettle, primeFinally.
    cbn [q performPrime_resume]. rewrite recordSnapshot_fields.
    cbn [q]. by rewrite Hq.
Qed.

Lemma prime_outlives_unsubscribe_witness :
  ("0xdef" ∈ subs sampleSubscribed
   ∧ ("0xdef" ∉ (toLowerCase <$> ["0xABC"]))
   ∧ primeInflight (tracker sampleSubscribed) !! "0xdef" = Some 0%nat)
  ∧ ("0xdef" ∉ subs (refresh ["0xABC"] 1704067201000 sampleSubscribed))
  ∧ snapshots
      (primeSettle "0xdef" (Some samplePositions) 1704067202000 None
         1704067202100
         (tracker (refresh ["0xABC"] 1704067201000 sampleSubscribed)))
    !! "0xdef"
    = Some (parseSnapshot samplePositions, 1704067202000).
Proof.
  assert (H1 : "0xdef" ∈ subs sampleSubscribed).
  { apply (bool_decide_unpack _). vm_compute. exact I. }
  assert (H2 : "0xdef" ∉ (toLowerCase <$> ["0xABC"])).
  { apply (bool_decide_unpack _). vm_compute. exact I. }
  assert (H3 : primeInflight (tracker sampleSubscribed) !! "0xdef" = Some 0%nat).
  { vm_compute. reflexivity. }
  split; [by split_and!|].
  destruct (prime_outlives_unsubscribe ["0xABC"] 1704067201000 sampleSubscribed
              "0xdef" 0%nat samplePositions 1704067202000 None 1704067202100
              H1 H2 H3) as (Hout & _ & _ & Hsnap & _).
  split; [exact Hout|exact Hsnap].
Defined.

End Refresh.
